(** * Design-token pipeline: from token and style JSON to CSS custom properties

    A shallow embedding of [scripts/tokens/app.mjs].  The script reads a
    W3C-style token document and a list of Figma style records and writes one
    stylesheet.  JavaScript values are embedded as follows.

    - Strings are [string]s of 8-bit characters; case mapping, white space and
      character classes are the ASCII ones.
    - Numbers are finite decimals [Dec m k] (the value [m / 10^k]) or [NaN],
      printed the way [Number.prototype.toString] prints them in plain
      notation.  A quotient [n / 16] for an integer [n] is exact in binary64
      and prints with at most four decimals, so the embedding agrees with the
      script while the printed number has at most 15 significant digits.
    - Plain objects are association lists in creation order.  [obj_entries]
      gives the enumeration order of [for ... in], [Object.keys],
      [Object.values] and [Object.entries]: array-index names first, in
      ascending numeric order, then every other name in creation order.  Only
      own properties are modelled; names inherited from [Object.prototype] are
      outside the embedding.
    - Arrays are lists.  [console.warn] is a log of strings that the driver
      threads through.  A function that can throw on well-typed input returns
      an option, [None] for the exception.
    - The inputs are well typed: a [$value] is a string or a number, the
      members of a token that do not begin with [$] are tokens, a style record
      has its name and its list of effects. *)

From Stdlib Require Import String Ascii List ZArith Lia Bool DecimalString.
From Stdlib Require Import Sorted Permutation.
Import ListNotations.
Open Scope list_scope.
Open Scope string_scope.

Set Implicit Arguments.

(** [++] appends strings throughout; [+++] appends lists. *)
Infix "+++" := List.app (right associativity, at level 60).

(* ------------------------------------------------------------------------- *)
(** ** Characters and strings *)

Definition in_range (lo hi c : ascii) : bool :=
  (N_of_ascii lo <=? N_of_ascii c)%N && (N_of_ascii c <=? N_of_ascii hi)%N.

Definition is_digit (c : ascii) : bool := in_range "0" "9" c.
Definition is_upper (c : ascii) : bool := in_range "A" "Z" c.
Definition is_lower (c : ascii) : bool := in_range "a" "z" c.
Definition is_alnum (c : ascii) : bool := is_digit c || is_upper c || is_lower c.

(** White space as [String.prototype.trim] sees it, within ASCII:
    TAB, LF, VT, FF, CR and SPACE. *)
Definition is_space (c : ascii) : bool :=
  let n := N_of_ascii c in ((9 <=? n) && (n <=? 13) || (n =? 32))%N.

Definition lower_char (c : ascii) : ascii :=
  if is_upper c then ascii_of_N (N_of_ascii c + 32) else c.
Definition upper_char (c : ascii) : ascii :=
  if is_lower c then ascii_of_N (N_of_ascii c - 32) else c.

Fixpoint map_chars (f : ascii -> ascii) (s : string) : string :=
  match s with
  | "" => ""
  | String c r => String (f c) (map_chars f r)
  end.

Definition toLowerCase : string -> string := map_chars lower_char.
Definition toUpperCase : string -> string := map_chars upper_char.

(** The double quote, which a literal cannot hold. *)
Definition dquote : string := String (ascii_of_nat 34) "".

Fixpoint drop (n : nat) (s : string) : string :=
  match n, s with
  | S n', String _ r => drop n' r
  | _, _ => s
  end.

(** [s.charAt(0)] and [s.slice(1)]. *)
Definition charAt0 (s : string) : string :=
  match s with String c _ => String c "" | "" => "" end.
Definition slice1 (s : string) : string := drop 1 s.

Definition startsWith (s p : string) : bool := String.prefix p s.

(** The text before and after the first occurrence of [pat] in [s]. *)
Fixpoint split_first (pat s : string) : option (string * string) :=
  if String.prefix pat s then Some ("", drop (String.length pat) s)
  else match s with
       | "" => None
       | String c r =>
           match split_first pat r with
           | Some (b, a) => Some (String c b, a)
           | None => None
           end
       end.

Definition includes (s pat : string) : bool :=
  match split_first pat s with Some _ => true | None => false end.

(** The replacement text of [String.prototype.replace] for a string pattern
    (GetSubstitution without captures): [$$] is a dollar, [$&] the match,
    [$`] the text before it and [$'] the text after it; every other
    character, a dollar before a digit included, stands for itself. *)
Fixpoint getSubstitution (matched before after rep : string) : string :=
  match rep with
  | "" => ""
  | String "$" (String "$" r) => String "$" (getSubstitution matched before after r)
  | String "$" (String "&" r) => matched ++ getSubstitution matched before after r
  | String "$" (String "`" r) => before ++ getSubstitution matched before after r
  | String "$" (String "'" r) => after ++ getSubstitution matched before after r
  | String c r => String c (getSubstitution matched before after r)
  end.

(** [s.replace(pat, rep)] with a string pattern: the first occurrence only. *)
Definition replace (s pat rep : string) : string :=
  match split_first pat s with
  | Some (b, a) => b ++ getSubstitution pat b a rep ++ a
  | None => s
  end.

(** [s.replace(/[class]/g, rep)]: every character of the class, one by one. *)
Fixpoint replace_each (p : ascii -> bool) (rep s : string) : string :=
  match s with
  | "" => ""
  | String c r => if p c then rep ++ replace_each p rep r
                  else String c (replace_each p rep r)
  end.

Fixpoint drop_while (p : ascii -> bool) (s : string) : string :=
  match s with
  | String c r => if p c then drop_while p r else s
  | "" => ""
  end.

(** [s.replace(/[class]+/g, rep)]: every maximal run of the class. *)
Fixpoint replace_runs (p : ascii -> bool) (rep s : string) : string :=
  match s with
  | "" => ""
  | String c r =>
      if p c then
        match r with
        | String c' _ => if p c' then replace_runs p rep r
                         else rep ++ replace_runs p rep r
        | "" => rep
        end
      else String c (replace_runs p rep r)
  end.

Fixpoint rev_string (s : string) : string :=
  match s with
  | "" => ""
  | String c r => rev_string r ++ String c ""
  end.

Definition trimStart (s : string) : string := drop_while is_space s.
Definition trimEnd (s : string) : string := rev_string (trimStart (rev_string s)).
Definition trim (s : string) : string := trimEnd (trimStart s).

Fixpoint join (sep : string) (l : list string) : string :=
  match l with
  | [] => ""
  | [x] => x
  | x :: r => x ++ sep ++ join sep r
  end.

(** [s.split(/[class]/)]: the pieces between the characters of the class. *)
Fixpoint split_on (p : ascii -> bool) (s : string) : list string :=
  match s with
  | "" => [""]
  | String c r =>
      if p c then "" :: split_on p r
      else match split_on p r with
           | x :: xs => String c x :: xs
           | [] => [String c ""]
           end
  end.

Fixpoint span (p : ascii -> bool) (s : string) : string * string :=
  match s with
  | String c r =>
      if p c then let (a, b) := span p r in (String c a, b) else ("", s)
  | "" => ("", "")
  end.

Definition is_char (d : ascii) (c : ascii) : bool := Ascii.eqb c d.

Fixpoint all_chars (p : ascii -> bool) (s : string) : bool :=
  match s with
  | "" => true
  | String c r => p c && all_chars p r
  end.

(** [s.replace(/^\{/, "")] and [s.replace(/\}$/, "")]. *)
Definition strip_open (s : string) : string :=
  match s with String "{" r => r | _ => s end.
Definition strip_close (s : string) : string :=
  match rev_string s with String "}" r => rev_string r | _ => s end.

(* ------------------------------------------------------------------------- *)
(** ** Numbers *)

Inductive num : Type :=
| NaN
| Dec (m : Z) (k : nat).

Definition string_of_N (n : N) : string :=
  NilEmpty.string_of_uint (N.to_uint n).

Fixpoint strip_zeros (m : N) (k : nat) : N * nat :=
  match k with
  | O => (m, O)
  | S k' => if (m mod 10 =? 0)%N then strip_zeros (m / 10) k' else (m, k)
  end.

Fixpoint pad_left (k : nat) (s : string) : string :=
  if (k <=? String.length s)%nat then s
  else match k with
       | O => s
       | S k' => String "0" (pad_left k' s)
       end.

(** [Number.prototype.toString] in plain notation. *)
Definition num_to_string (x : num) : string :=
  match x with
  | NaN => "NaN"
  | Dec m k =>
      let (a, k') := strip_zeros (Z.abs_N m) k in
      let p := (10 ^ N.of_nat k')%N in
      let sign := if (m <? 0)%Z then "-" else "" in
      match k' with
      | O => sign ++ string_of_N a
      | _ => sign ++ string_of_N (a / p) ++ "." ++ pad_left k' (string_of_N (a mod p))
      end
  end.

Fixpoint digits_value (acc : N) (s : string) : N :=
  match s with
  | "" => acc
  | String c r => digits_value (acc * 10 + (N_of_ascii c - 48)) r
  end.

(** [parseInt(s)] for a text without leading blanks or radix prefix: an
    optional sign and the longest run of decimal digits; [NaN] when there is
    no digit.  The script calls it behind [valueIsDigits] only. *)
Definition parseInt (s : string) : num :=
  let (neg, body) := match s with
                     | String "-" r => (true, r)
                     | String "+" r => (false, r)
                     | _ => (false, s)
                     end in
  let (ds, _) := span is_digit body in
  if ds =? "" then NaN
  else let n := Z.of_N (digits_value 0 ds) in
       Dec (if neg then - n else n)%Z 0.

(** [x / 16]: exact, since [1/16 = 625/10000]. *)
Definition div16 (x : num) : num :=
  match x with
  | NaN => NaN
  | Dec m k => Dec (m * 625) (k + 4)
  end.

(** [Number(s)] for decimal literals: blanks trimmed, the empty text is 0,
    an optional sign, digits with an optional fraction; anything else is
    [NaN].  Exponents, radix prefixes and [Infinity] are not modelled. *)
Definition toNumber_string (s : string) : num :=
  let t := trim s in
  if t =? "" then Dec 0 0
  else
    let (neg, body) := match t with
                       | String "-" r => (true, r)
                       | String "+" r => (false, r)
                       | _ => (false, t)
                       end in
    let (int, r1) := span is_digit body in
    let (frac, ok) :=
      match r1 with
      | "" => ("", true)
      | String "." r2 => let (f, r3) := span is_digit r2 in (f, r3 =? "")
      | _ => ("", false)
      end in
    if ok && negb ((int =? "") && (frac =? "")) then
      let n := Z.of_N (digits_value 0 (int ++ frac)) in
      Dec (if neg then - n else n)%Z (String.length frac)
    else NaN.

(** [Math.round(x * 10000) / 10000], computed on the decimal. *)
Definition round4 (x : num) : num :=
  match x with
  | NaN => NaN
  | Dec m k =>
      let p := (10 ^ Z.of_nat k)%Z in
      Dec ((2 * (m * 10000) + p) / (2 * p))%Z 4
  end.

(** A token value or a CSS value: a string or a number. *)
Inductive jsval : Type :=
| JStr (s : string)
| JNum (x : num).

Definition toString (v : jsval) : string :=
  match v with
  | JStr s => s
  | JNum x => num_to_string x
  end.

Definition toNumber (v : jsval) : num :=
  match v with
  | JStr s => toNumber_string s
  | JNum x => x
  end.

(* ------------------------------------------------------------------------- *)
(** ** Plain objects *)

Definition obj (V : Type) : Type := list (string * V).

Section Objects.
Variable V : Type.

Fixpoint obj_get (k : string) (o : obj V) : option V :=
  match o with
  | [] => None
  | (k', v) :: r => if k' =? k then Some v else obj_get k r
  end.

(** [o[k] = v]: an existing property keeps its place, a new one goes last. *)
Fixpoint obj_set (k : string) (v : V) (o : obj V) : obj V :=
  match o with
  | [] => [(k, v)]
  | (k', v') :: r => if k' =? k then (k', v) :: r else (k', v') :: obj_set k v r
  end.

(** [delete o[k]]. *)
Fixpoint obj_delete (k : string) (o : obj V) : obj V :=
  match o with
  | [] => []
  | (k', v') :: r => if k' =? k then obj_delete k r else (k', v') :: obj_delete k r
  end.

(** An array index: the canonical decimal text of an integer below
    [2^32 - 1]. *)
Definition array_index (k : string) : option N :=
  match k with
  | "" => None
  | String c r =>
      if all_chars is_digit k && (negb (Ascii.eqb c "0") || (r =? ""))
         && (String.length k <=? 10)%nat
      then let n := digits_value 0 k in
           if (n <? 4294967295)%N then Some n else None
      else None
  end.

Fixpoint insert_index (n : N) (e : string * V) (l : list (N * (string * V)))
  : list (N * (string * V)) :=
  match l with
  | [] => [(n, e)]
  | (n', e') :: r =>
      if (n <=? n')%N then (n, e) :: l else (n', e') :: insert_index n e r
  end.

Fixpoint index_entries (o : obj V) : list (N * (string * V)) :=
  match o with
  | [] => []
  | (k, v) :: r =>
      match array_index k with
      | Some n => insert_index n (k, v) (index_entries r)
      | None => index_entries r
      end
  end.

Definition named_entries (o : obj V) : obj V :=
  filter (fun e => match array_index (fst e) with Some _ => false | None => true end) o.

(** [Object.entries(o)], and the order of [for (k in o)]. *)
Definition obj_entries (o : obj V) : list (string * V) :=
  map snd (index_entries o) +++ named_entries o.

Definition obj_keys (o : obj V) : list string := map fst (obj_entries o).
Definition obj_values (o : obj V) : list V := map snd (obj_entries o).
End Objects.

(* ------------------------------------------------------------------------- *)
(** ** Configuration *)

Definition CONVERT_TO_REM : bool := true.
Definition NAMESPACES : list string := ["com.figma.wds"; "org.wds"].
Definition TOKEN_PREFIX : string := "wds-".

Record collectionSettings : Type := mkSettings {
  prefix : string;
  colorSchemes : option (list string);
  colorSchemesDark : option (list string);
  colorSchemeLightRemove : option string;
  colorSchemeDarkRemove : option string;
  replacements : option (obj string);
  convertPixelToRem : option bool
}.

(** A flat definition, one for each leaf and mode.  [figmaId] is [None] where
    the script stores [undefined]. *)
Record definition : Type := mkDefinition {
  property : string;
  propertyName : string;
  figmaId : option string;
  description : string;
  value : jsval;
  type : string
}.

(** The per-namespace extension data of a leaf. *)
Record extensionData : Type := mkExtensionData {
  ext_figmaId : option string;
  modes : option (obj jsval)
}.

(** A node of the token tree: the [$type], [$value], [$description] and
    [$extensions] members, and every other member as a child in document
    order. *)
#[local] Unset Elimination Schemes.
Inductive token : Type :=
| Token (type_ : option string) (value_ : option jsval)
        (description_ : option string) (extensions_ : option (obj extensionData))
        (children : list (string * token)).
#[local] Set Elimination Schemes.

(** A template literal prints [undefined] for a missing string. *)
Definition template (s : option string) : string :=
  match s with Some x => x | None => "undefined" end.

(** [a || b] on strings that may be [undefined]. *)
Definition or_string (a : option string) (b : string) : string :=
  match a with
  | Some x => if x =? "" then b else x
  | None => b
  end.

Fixpoint getNamespaceData_in (namespaces : list string)
  (extensions : obj extensionData) : option extensionData :=
  match namespaces with
  | [] => None
  | namespace :: r =>
      match obj_get namespace extensions with
      | Some d => Some d
      | None => getNamespaceData_in r extensions
      end
  end.

Definition getNamespaceData (extensions : option (obj extensionData))
  : option extensionData :=
  match extensions with
  | None => None
  | Some e => getNamespaceData_in NAMESPACES e
  end.

(* ------------------------------------------------------------------------- *)
(** ** The value converter *)

(** [/^-?\d+(\.\d+)?$/] *)
Definition valueIsDigits (s : string) : bool :=
  let body := match s with String "-" r => r | _ => s end in
  let (int, r1) := span is_digit body in
  negb (int =? "")
  && match r1 with
     | "" => true
     | String "." r2 =>
         let (frac, r3) := span is_digit r2 in negb (frac =? "") && (r3 =? "")
     | _ => false
     end.

(** The alias rewrite of [valueToCSS]. *)
Definition aliasToCSS (value definitionsKey prefix : string) : string :=
  "var(--"
  ++ strip_close
       (strip_open
          (replace_each (fun c => is_char "." c || is_char " " c) "-"
             (replace value definitionsKey prefix)))
  ++ ")".

Definition valueToCSS (property : string) (value : jsval)
  (definitionsKey : string) (convertPixelToRem : bool) (prefix : string) : jsval :=
  if charAt0 (toString value) =? "{" then
    (* only a string can begin with a brace *)
    JStr (aliasToCSS (toString value) definitionsKey prefix)
  else
    let valueIsDigits := valueIsDigits (toString value) in
    let isRatio := includes property "ratio-" in
    let isNumeric :=
      valueIsDigits
      && negb (includes property "weight" || includes property "ratio-")
      && negb isRatio in
    if isNumeric then
      if convertPixelToRem
      then JStr (num_to_string (div16 (parseInt (toString value))) ++ "rem")
      else JStr (toString value ++ "px")
    else if isRatio then JNum (round4 (toNumber value))
    else if includes property "family-mono"
         then JStr (dquote ++ toString value ++ dquote ++ ", monospace")
    else if includes property "family-sans"
         then JStr (dquote ++ toString value ++ dquote ++ ", sans-serif")
    else if includes property "family-serif"
         then JStr (dquote ++ toString value ++ dquote ++ ", serif")
    else value.

(* ------------------------------------------------------------------------- *)
(** ** The tree traverser *)

Definition capitalize (k : string) : string :=
  toUpperCase (charAt0 k) ++ slice1 k.

Definition propertyOf (keys : list string) : string := "--" ++ join "-" keys.

Definition propertyNameFull (keys : list string) : string :=
  join "" (map (fun key =>
                  join "" (map capitalize (split_on (fun c => negb (is_alnum c)) key)))
             keys).

Definition propertyNameOf (keys : list string) : string :=
  let full := propertyNameFull keys in
  toLowerCase (charAt0 full) ++ slice1 full.

(** Every pair of the table is applied once, in enumeration order; then the
    text is lowercased.  A number passes unchanged. *)
Definition valueWithReplacements (replacements : obj string) (value : jsval) : jsval :=
  match value with
  | JNum _ => value
  | JStr s =>
      JStr (toLowerCase
              (fold_left (fun v r => replace v (fst r) (snd r))
                 (obj_entries replacements) s))
  end.

(** [definitions[mode] = definitions[mode] || []; definitions[mode].push(d)] *)
Definition push_definition (mode : string) (d : definition)
  (definitions : obj (list definition)) : obj (list definition) :=
  match obj_get mode definitions with
  | Some l => obj_set mode (l +++ [d]) definitions
  | None => obj_set mode [d] definitions
  end.

Section Traverse.
Variable replacements_ : obj string.
Variable definitionsKey : string.
Variable prefix_ : string.
Variable convertPixelToRem_ : bool.

(** What [traverse] does at a leaf, [object] carrying a [$value]. *)
Definition traverse_leaf (definitions : obj (list definition))
  (type_ : option string) (value_ : jsval) (description_ : option string)
  (extensions_ : option (obj extensionData))
  (currentType : string) (keys : list string) : obj (list definition) :=
  let property := propertyOf keys in
  let propertyName := propertyNameOf keys in
  let type := or_string type_ currentType in
  let extensionData := getNamespaceData extensions_ in
  let description := or_string description_ "" in
  match extensionData with
  | Some (mkExtensionData figmaId (Some modes)) =>
      fold_left
        (fun definitions m =>
           push_definition (fst m)
             (mkDefinition property propertyName figmaId description
                (valueWithReplacements replacements_
                   (valueToCSS property (snd m) definitionsKey
                      convertPixelToRem_ prefix_))
                type)
             definitions)
        (obj_entries modes) definitions
  | _ =>
      let figmaId :=
        match extensionData with
        | Some e => ext_figmaId e
        | None => Some "UNDEFINED"
        end in
      push_definition "default"
        (mkDefinition property propertyName figmaId description
           (valueWithReplacements replacements_
              (valueToCSS property value_ definitionsKey convertPixelToRem_ ""))
           type)
        definitions
  end.

(** The walk of one child: a member whose name begins with [$] is passed
    over. *)
Definition visit_child (type : string) (keys : list string)
  (definitions : obj (list definition))
  (child : string * (obj (list definition) -> string -> list string
                     -> obj (list definition)))
  : obj (list definition) :=
  if charAt0 (fst child) =? "$" then definitions
  else snd child definitions type (keys +++ [fst child]).

Fixpoint traverse (object : token) (definitions : obj (list definition))
  (currentType : string) (keys : list string) {struct object}
  : obj (list definition) :=
  match object with
  | Token type_ (Some value_) description_ extensions_ _ =>
      traverse_leaf definitions type_ value_ description_ extensions_
        currentType keys
  | Token type_ None _ _ children =>
      let type := or_string type_ currentType in
      let walks :=
        (fix each (cs : list (string * token)) :=
           match cs with
           | [] => []
           | (key, value) :: r => (key, traverse value) :: each r
           end) children in
      fold_left (visit_child type keys) (obj_entries walks) definitions
  end.
End Traverse.

(* ------------------------------------------------------------------------- *)
(** ** The CSS emitter *)

Definition newline : string := String (ascii_of_nat 10) "".

(** [a.property > b.property], on the code units. *)
Definition property_gtb (a b : definition) : bool :=
  String.ltb (property b) (property a).

Fixpoint sort_insert (a : definition) (l : list definition) : list definition :=
  match l with
  | [] => [a]
  | b :: r => if property_gtb a b then b :: sort_insert a r else a :: l
  end.

(** [lines.sort((a, b) => (a.property > b.property ? 1 : -1))].  Where the
    properties are pairwise distinct this is the ascending order; the
    comparator never answers 0, so the order of two definitions with the same
    property is left to the engine (here: kept). *)
Definition sort_by_property (lines : list definition) : list definition :=
  fold_right sort_insert [] lines.

(** The argument is [undefined] for a mode without definitions and then
    defaults to the empty array. *)
Definition drawCSSPropLines (lines : option (list definition)) (indent : string)
  : string :=
  let lines := match lines with Some l => l | None => [] end in
  join (";" ++ newline)
    (map (fun l => indent ++ property l ++ ": " ++ toString (value l))
       (sort_by_property lines))
  ++ ";".

(** One pass of [settings.colorSchemes.forEach] or of its dark twin:
    [pad] is the indentation of the block, [i] the position in the list. *)
Definition schemeBlock (definitions : obj (list definition)) (key : string)
  (remove : option string) (pad : string) (i : nat) (scheme : string)
  : list string :=
  ((match i with
    | O => [pad ++ "/* " ++ key ++ ": " ++ scheme ++ " (default) */";
            pad ++ ":root {"]
    | S _ => [pad ++ "/* " ++ key ++ ": " ++ scheme ++ " */";
              pad ++ "." ++ TOKEN_PREFIX ++ "scheme-" ++ key ++ "-"
              ++ replace scheme (template remove) "" ++ " {"]
    end)
   +++ [drawCSSPropLines (obj_get scheme definitions) (pad ++ "  "); pad ++ "}"]).

Fixpoint forEach_indexed (A B : Type) (f : nat -> A -> list B) (i : nat)
  (l : list A) : list B :=
  match l with
  | [] => []
  | x :: r => f i x +++ forEach_indexed f (S i) r
  end.

(** One pass of [for (let k in definitions)] in the branch without colour
    schemes; [first] tells whether a mode came before. *)
Definition modeBlock (key : string) (first : bool)
  (entry : string * list definition) : list string :=
  let k := fst entry in
  ((if first
    then ["/* " ++ key ++ ": " ++ k ++ " */";
          "." ++ TOKEN_PREFIX ++ "theme-" ++ key ++ "-" ++ k ++ " {"]
    else ["/* " ++ key ++ ": " ++ k ++ " (default) */"; ":root {"])
   +++ [drawCSSPropLines (Some (snd entry)) "  "; "}"]).

Fixpoint modeBlocks (key : string) (first : bool)
  (entries : list (string * list definition)) : list string :=
  match entries with
  | [] => []
  | e :: r => modeBlock key first e +++ modeBlocks key true r
  end.

Definition fileStringCSSFromProcessedObject
  (definitions : obj (list definition)) (settings : collectionSettings)
  (key : string) : list string :=
  match colorSchemes settings with
  | Some schemes =>
      (forEach_indexed
         (schemeBlock definitions key (colorSchemeLightRemove settings) "") 0 schemes
       +++ match colorSchemesDark settings with
           | Some dark =>
               ["@media (prefers-color-scheme: dark) {"]
               +++ forEach_indexed
                     (schemeBlock definitions key (colorSchemeDarkRemove settings) "  ")
                     0 dark
               +++ ["}"]
           | None => []
           end)
  | None => modeBlocks key false (obj_entries definitions)
  end.

(** [sort] works in place: a list that was drawn stays sorted in
    [definitions]. *)
Definition sort_mode (definitions : obj (list definition)) (mode : string)
  : obj (list definition) :=
  match obj_get mode definitions with
  | Some l => obj_set mode (sort_by_property l) definitions
  | None => definitions
  end.

Definition definitionsAfterDraw (definitions : obj (list definition))
  (settings : collectionSettings) : obj (list definition) :=
  match colorSchemes settings with
  | Some schemes =>
      fold_left sort_mode
        (schemes +++ match colorSchemesDark settings with
                     | Some dark => dark
                     | None => []
                     end)
        definitions
  | None => map (fun e => (fst e, sort_by_property (snd e))) definitions
  end.

(* ------------------------------------------------------------------------- *)
(** ** The collection processor and the driver *)

(** An item of [COLLECTION_DATA]: its settings and, once the collection has
    been processed, its definitions by mode. *)
Record collection : Type := mkCollection {
  settings : collectionSettings;
  definitions : option (obj (list definition))
}.

Definition definitionsOf (c : collection) : obj (list definition) :=
  match definitions c with Some d => d | None => [] end.

(** What [processTokenJSON] returns, [processed] and [themeCSS], and the
    snippet it writes to [tokenVariableSyntaxAndDescriptionSnippet.js] on the
    way. *)
Record tokenResult : Type := mkTokenResult {
  processed : obj collection;
  themeCSS : list string;
  snippet : string
}.

(** A run: the warnings it printed, and what it returned unless it threw. *)
Record tokenRun : Type := mkTokenRun {
  warnings : list string;
  returned : option tokenResult
}.

(** [lines.sort()]: ascending on the code units. *)
Fixpoint insert_string (a : string) (l : list string) : list string :=
  match l with
  | [] => [a]
  | b :: r => if String.ltb b a then b :: insert_string a r else a :: l
  end.

Definition sort_strings (l : list string) : list string :=
  fold_right insert_string [] l.

Definition syntaxLine (l : definition) : string :=
  "  [" ++ dquote ++ template (figmaId l) ++ dquote ++ ", "
  ++ dquote ++ "var(" ++ property l ++ ")" ++ dquote ++ ", "
  ++ dquote ++ description l ++ dquote ++ "]".

(** The snippet lines of the first mode of a collection.  An object without
    any mode has no first key: [lines] is [undefined] and [lines.map] throws,
    which is [None] here. *)
Definition drawVariableSyntaxAndDescription
  (linesObject : option (obj (list definition))) : option string :=
  let linesObject :=
    match linesObject with Some o => o | None => [("default", [])] end in
  match obj_values linesObject with
  | [] => None
  | lines :: _ => Some (join ("," ++ newline) (sort_strings (map syntaxLine lines)))
  end.

Fixpoint all_returned (A : Type) (l : list (option A)) : option (list A) :=
  match l with
  | [] => Some []
  | None :: _ => None
  | Some x :: r =>
      match all_returned r with
      | Some xs => Some (x :: xs)
      | None => None
      end
  end.

Definition variableSyntaxAndDescriptionString (processed : obj collection)
  : option string :=
  match all_returned
          (map (fun c => drawVariableSyntaxAndDescription (definitions c))
             (obj_values processed)) with
  | None => None
  | Some drawn =>
      Some ("Promise.all([" ++ newline
            ++ join ("," ++ newline) (sort_strings drawn) ++ "," ++ newline
            ++ "].map(async ([variableId, webSyntax, description]) => {" ++ newline
            ++ "  const variable = await figma.variables.getVariableByIdAsync(variableId);"
            ++ newline
            ++ "  if (variable) {" ++ newline
            ++ "    variable.setVariableCodeSyntax(" ++ dquote ++ "WEB" ++ dquote
            ++ ", webSyntax);" ++ newline
            ++ "    variable.description = description;" ++ newline
            ++ "  }" ++ newline
            ++ "  return;" ++ newline
            ++ "})).then(() => console.log(" ++ dquote ++ "DONE!" ++ dquote
            ++ ")).catch(console.error)")
  end.

Section Driver.
(** The marker that opens a collection name in the token document.  It is
    imported from [fromFigma.mjs]. *)
Variable KEY_PREFIX_COLLECTION : string.

Definition onlyPrefix (p : string) : collectionSettings :=
  mkSettings p None None None None None None.

Definition COLLECTION_DATA : obj collection :=
  [ ("color_primitives", mkCollection (onlyPrefix "color") None);
    ("new_color_primitives", mkCollection (onlyPrefix "new-color") None);
    ("color",
      mkCollection
        (mkSettings "color" (Some ["wds_light"]) (Some ["wds_dark"])
           (Some "_light") (Some "_dark")
           (Some [ ("color_primitives", "color");
                   ("@new_color_primitives", "wds-new-color");
                   ("@new_color", "wds-new-color") ])
           None)
        None);
    ("size",
      mkCollection
        (mkSettings "size" None None None None
           (Some [ (KEY_PREFIX_COLLECTION ++ "responsive", "responsive") ])
           (Some true))
        None);
    ("typography_primitives",
      mkCollection
        (mkSettings "typography" None None None None
           (Some [ (KEY_PREFIX_COLLECTION ++ "responsive", "responsive");
                   ("Extra Bold Italic", "800 italic");
                   ("Semi Bold Italic", "600 italic");
                   ("Medium Italic", "500 italic");
                   ("Regular Italic", "400 italic");
                   ("Extra Light Italic", "200 italic");
                   ("Light Italic", "300 italic");
                   ("Black Italic", "900 italic");
                   ("Bold Italic", "700 italic");
                   ("Thin Italic", "100 italic") ])
           (Some true))
        None);
    ("typography",
      mkCollection
        (mkSettings "typography" None None None None
           (Some [ ("typography_primitives", "typography") ])
           (Some true))
        None);
    ("responsive",
      mkCollection (mkSettings "responsive" None None None None None (Some true))
        None) ].

Definition defaultCollection (normalizedKey : string) : collection :=
  mkCollection
    (mkSettings (replace_each (is_char "_") "-" normalizedKey)
       None None None None None (Some true))
    None.

Definition addedWarning (normalizedKey : string) : string :=
  "Added default token collection settings for " ++ dquote ++ normalizedKey
  ++ dquote
  ++ ". Consider configuring it explicitly if special handling is needed.".

Definition skippingWarning (definitionsKey : string) : string :=
  "Skipping token collection " ++ dquote ++ definitionsKey ++ dquote
  ++ " - not found in tokens.json".

(** The body of the [forEach] of [ensureCollectionSettingsExist], on the
    collection table and the log. *)
Definition ensureOne (st : obj collection * list string) (definitionsKey : string)
  : obj collection * list string :=
  if negb (startsWith definitionsKey KEY_PREFIX_COLLECTION) then st
  else
    let normalizedKey := drop (String.length KEY_PREFIX_COLLECTION) definitionsKey in
    if normalizedKey =? "" then st
    else match obj_get normalizedKey (fst st) with
         | Some _ => st
         | None =>
             (obj_set normalizedKey (defaultCollection normalizedKey) (fst st),
              snd st +++ [addedWarning normalizedKey])
         end.

Definition ensureCollectionSettingsExist (data : obj token)
  (collections : obj collection) : obj collection * list string :=
  fold_left ensureOne (obj_keys data) (collections, []).

Definition processCollection (tree : token) (processed : collection)
  (definitionsKey : string) : collection :=
  let replacements :=
    match replacements (settings processed) with Some r => r | None => [] end in
  let convertPixelToRem :=
    match convertPixelToRem (settings processed) with
    | Some b => b
    | None => CONVERT_TO_REM
    end in
  let fullPrefix := TOKEN_PREFIX ++ prefix (settings processed) in
  mkCollection (settings processed)
    (Some (traverse replacements definitionsKey fullPrefix convertPixelToRem
             tree [] "" (if fullPrefix =? "" then [] else [fullPrefix]))).

(** The body of the first [for (let key in processed)]. *)
Definition processOne (data : obj token) (st : obj collection * list string)
  (key : string) : obj collection * list string :=
  let definitionsKey := KEY_PREFIX_COLLECTION ++ key in
  match obj_get definitionsKey data with
  | None => (obj_delete key (fst st), snd st +++ [skippingWarning definitionsKey])
  | Some tree =>
      match obj_get key (fst st) with
      | Some c => (obj_set key (processCollection tree c definitionsKey) (fst st), snd st)
      | None => st
      end
  end.

Definition fileHeader : list string :=
  [ "/*";
    " * This file is automatically generated by scripts/tokens/app.mjs!";
    " */" ].

Definition collectionCSS (entry : string * collection) : list string :=
  fileStringCSSFromProcessedObject (definitionsOf (snd entry))
    (settings (snd entry)) (fst entry).

(** A collection once its blocks are drawn. *)
Definition drawnCollection (c : collection) : collection :=
  mkCollection (settings c)
    (Some (definitionsAfterDraw (definitionsOf c) (settings c))).

Definition drawn (entry : string * collection) : string * collection :=
  (fst entry, drawnCollection (snd entry)).

(** The first half of [processTokenJSON], on a given state of the
    collection table: the settings are completed, the table is copied into
    [processed], and every collection of the copy is processed or dropped. *)
Definition processCollections (collections : obj collection) (data : obj token)
  : obj collection * list string :=
  let ensured := ensureCollectionSettingsExist data collections in
  let copy := obj_entries (fst ensured) in
  fold_left (processOne data) (map fst copy) (copy, snd ensured).

(** The second half: the stylesheet, drawn collection by collection, and
    then the snippet, drawn from the collections as the stylesheet left
    them.  The script returns when the snippet could be drawn; whether the
    snippet file could be written makes no difference. *)
Definition processTokenJSON_from (collections : obj collection) (data : obj token)
  : tokenRun :=
  let st := processCollections collections data in
  let fileStringCSSLines :=
    fileHeader +++ flat_map collectionCSS (obj_entries (fst st)) in
  let processed := map drawn (obj_entries (fst st)) in
  mkTokenRun (snd st)
    (match variableSyntaxAndDescriptionString processed with
     | Some snippet => Some (mkTokenResult processed fileStringCSSLines snippet)
     | None => None
     end).

Definition processTokenJSON (data : obj token) : tokenRun :=
  processTokenJSON_from COLLECTION_DATA data.
End Driver.

(** The table that [initialize] builds for the style processor: every
    definition of every mode of every collection, keyed by its [figmaId]; a
    later definition replaces an earlier one with the same id. *)
Definition processedOf (run : tokenRun) : obj collection :=
  match returned run with Some r => processed r | None => [] end.

Definition flatDefinitions (processed : obj collection) : list definition :=
  flat_map (fun c => concat (obj_values (definitionsOf c))) (obj_values processed).

Definition lookupsOf (items : list definition) : obj definition :=
  fold_left (fun into item => obj_set (template (figmaId item)) item into) items [].

Definition variableLookups (processed : obj collection) : obj definition :=
  lookupsOf (flatDefinitions processed).

(* ------------------------------------------------------------------------- *)
(** ** The style processor *)

(** [/\d{3}/]: the first three digits in a row. *)
Fixpoint match_three_digits (s : string) : option string :=
  match s with
  | String a (String b (String c _ as r2) as r1) =>
      if is_digit a && is_digit b && is_digit c
      then Some (String a (String b (String c "")))
      else match_three_digits r1
  | _ => None
  end.

Definition weightMap : obj string :=
  [ ("thin", "100"); ("extra light", "200"); ("ultralight", "200");
    ("light", "300"); ("book", "350"); ("normal", "400"); ("regular", "400");
    ("roman", "400"); ("medium", "500"); ("semi bold", "600");
    ("demi bold", "600"); ("bold", "700"); ("extra bold", "800");
    ("black", "900"); ("heavy", "900") ].

Record fontParts : Type := mkFontParts {
  fontStyle : string;
  fontWeight : string
}.

(** The text left of a descriptor once the first [italic] is cut out and
    blanks and hyphens are normalised. *)
Definition normalizedKeyOf (styleName : string) : string :=
  let lower := toLowerCase styleName in
  let weightKey := trim (replace_runs (is_char " ") " " (replace lower "italic" "")) in
  trim (replace_runs (is_char "-") " " weightKey).

Definition parseFontStyle (styleName : string) : fontParts :=
  if styleName =? "" then mkFontParts "normal" "400"
  else
    let lower := toLowerCase styleName in
    let isItalic := includes lower "italic" in
    let normalizedKey := normalizedKeyOf styleName in
    let directMatch := obj_get normalizedKey weightMap in
    let fontWeight :=
      match directMatch with
      | Some w => w
      | None =>
          if normalizedKey =? "" then "400"
          else
            let fuzzyKey :=
              find (fun key => includes normalizedKey key) (obj_keys weightMap) in
            match match fuzzyKey with
                  | Some key => obj_get key weightMap
                  | None => None
                  end with
            | Some w => w
            | None =>
                match match_three_digits normalizedKey with
                | Some d => d
                | None => "400"
                end
            end
      end in
    mkFontParts (if isItalic then "italic" else "normal") fontWeight.

(** The value bound to a property of a style: a reference to a variable, with
    its [id] when it has one, or a plain string or number. *)
Inductive bound : Type :=
| BRef (id : option string)
| BStr (s : string)
| BNum (x : num).

Definition truthy (item : bound) : bool :=
  match item with
  | BRef _ => true
  | BStr s => negb (s =? "")
  | BNum NaN => false
  | BNum (Dec m _) => negb (m =? 0)%Z
  end.

(** [/^[1-9]00$/] *)
Definition isHundreds (s : string) : bool :=
  match s with
  | String d (String "0" (String "0" "")) => in_range "1" "9" d
  | _ => false
  end.

Definition value_is (s : string) (d : definition) : bool :=
  match value d with
  | JStr v => v =? s
  | JNum _ => false
  end.

Section Styles.
Variable variablesLookup : obj definition.

Definition valueFromPossibleVariable (item : bound) (fallback : string) : string :=
  match item with
  | BRef id =>
      match obj_get (template id) variablesLookup with
      | Some variable => "var(" ++ property variable ++ ")"
      | None => fallback
      end
  | _ =>
      let stringItem :=
        match item with
        | BStr s => s
        | BNum x => num_to_string x
        | BRef _ => ""
        end in
      if isHundreds stringItem then
        match find (value_is stringItem) (obj_values variablesLookup) with
        | Some variable => "var(" ++ property variable ++ ")"
        | None => stringItem
        end
      else if stringItem =? "" then fallback else stringItem
  end.

(** [boundVariables.p ? valueFromPossibleVariable(boundVariables.p, v) : v] *)
Definition bindOr (boundVariables : obj bound) (p : string) (v : string) : string :=
  match obj_get p boundVariables with
  | Some item => if truthy item then valueFromPossibleVariable item v else v
  | None => v
  end.
End Styles.

Record fontName : Type := mkFontName {
  family : option string;
  style : option string
}.

Record textStyle : Type := mkTextStyle {
  text_name : string;
  text_fontSize : option num;
  text_fontFamily : option string;
  text_fontWeight : option jsval;
  text_fontStyle : option string;
  text_fontName : option fontName;
  text_boundVariables : obj bound
}.

Record derivedFont : Type := mkDerivedFont {
  derived_fontStyle : string;
  derived_fontWeight : string;
  derived_fontFamily : string;
  derived_fontSizeValue : string
}.

Definition fallbackDescriptor (fontStyle : string) (fontWeight : option jsval)
  : string :=
  let parts := fontStyle :: match fontWeight with
                            | Some w => [toString w]
                            | None => []
                            end in
  trim (join " " (map trim (filter (fun v => negb (trim v =? "")) parts))).

Definition deriveFontParts (fontName_ : option fontName) (fontSize : option num)
  (fallbackFamily : option string) (fallbackWeight : option jsval)
  (fallbackStyle : string) : derivedFont :=
  let family := match fontName_ with Some f => or_string (family f) "" | None => "" end in
  let style := match fontName_ with Some f => or_string (style f) "" | None => "" end in
  let resolvedFamily := or_string (Some family) (or_string fallbackFamily "") in
  let styleDescriptor :=
    or_string (Some style) (fallbackDescriptor fallbackStyle fallbackWeight) in
  let parsedStyle := parseFontStyle styleDescriptor in
  mkDerivedFont
    (fontStyle parsedStyle)
    (fontWeight parsedStyle)
    (if resolvedFamily =? "" then "sans-serif"
     else dquote ++ resolvedFamily ++ dquote ++ ", sans-serif")
    (match fontSize with
     | Some n => num_to_string n ++ "px"
     | None => "16px"
     end).

Definition textDeclaration (variablesLookup : obj definition) (s : textStyle)
  : string :=
  let d := deriveFontParts (text_fontName s) (text_fontSize s) (text_fontFamily s)
             (text_fontWeight s)
             (match text_fontStyle s with Some x => x | None => "normal" end) in
  let boundVariables := text_boundVariables s in
  let css :=
    join " "
      [ bindOr variablesLookup boundVariables "fontStyle" (derived_fontStyle d);
        bindOr variablesLookup boundVariables "fontWeight" (derived_fontWeight d);
        bindOr variablesLookup boundVariables "fontSize" (derived_fontSizeValue d);
        bindOr variablesLookup boundVariables "fontFamily" (derived_fontFamily d) ] in
  "--" ++ TOKEN_PREFIX ++ "font-"
  ++ toLowerCase
       (replace_runs (fun c => negb (is_alnum c)) "-"
          (drop_while (fun c => negb (is_alnum c)) (text_name s)))
  ++ ": " ++ css ++ ";".

(** A sub-effect.  A number that the record lacks prints as [undefined]. *)
Record effect : Type := mkEffect {
  visible : bool;
  effect_type : string;
  radius : option num;
  offset_x : option num;
  offset_y : option num;
  spread : option num;
  hex : option string;
  effect_boundVariables : obj bound
}.

Definition px (n : option num) : string :=
  match n with
  | Some x => num_to_string x ++ "px"
  | None => "undefinedpx"
  end.

Definition sanitizeName (name : string) : string :=
  toLowerCase
    (replace_runs (is_char " ") "-"
       (trim (replace_each (fun c => negb (is_alnum c || is_char " " c)) " " name))).

(** [None] where the script returns [undefined]. *)
Definition formatEffect (variablesLookup : obj definition) (e : effect)
  : option string :=
  let boundVariables := effect_boundVariables e in
  let type := effect_type e in
  if (type =? "DROP_SHADOW") || (type =? "INNER_SHADOW") then
    let numbers :=
      [ bindOr variablesLookup boundVariables "offsetX" (px (offset_x e));
        bindOr variablesLookup boundVariables "offsetY" (px (offset_y e));
        bindOr variablesLookup boundVariables "radius" (px (radius e));
        bindOr variablesLookup boundVariables "spread" (px (spread e));
        bindOr variablesLookup boundVariables "color"
          (match hex e with Some h => h | None => "" end) ] in
    Some ((if type =? "INNER_SHADOW" then "inset " else "") ++ join " " numbers)
  else if (type =? "LAYER_BLUR") || (type =? "BACKGROUND_BLUR") then
    Some ("blur(" ++ bindOr variablesLookup boundVariables "radius" (px (radius e))
          ++ ")")
  else None.

Inductive styleRecord : Type :=
| TEXT (s : textStyle)
| EFFECT (name : string) (effects : list effect)
| OTHER.

Definition joined (s : option string) : string :=
  match s with Some x => x | None => "" end.

Definition effectDeclarations (variablesLookup : obj definition) (name : string)
  (effects : list effect) : list string :=
  let safeName := sanitizeName name in
  let shown := filter visible effects in
  let format := formatEffect variablesLookup in
  let shadows := map format (filter (fun e => includes (effect_type e) "SHADOW") shown) in
  let filters := map format (filter (fun e => includes (effect_type e) "LAYER_BLUR") shown) in
  let backdropFilters :=
    map format (filter (fun e => includes (effect_type e) "BACKGROUND_BLUR") shown) in
  (match shadows with
   | [] => []
   | _ => ["--" ++ TOKEN_PREFIX ++ "effects-shadows-" ++ safeName ++ ": "
           ++ join ", " (map joined shadows) ++ ";"]
   end)
  +++ (match filters with
       | [] => []
       | f :: _ => ["--" ++ TOKEN_PREFIX ++ "effects-filter-" ++ safeName ++ ": "
                    ++ template f ++ ";"]
       end)
  +++ (match backdropFilters with
       | [] => []
       | f :: _ => ["--" ++ TOKEN_PREFIX ++ "effects-backdrop-filter-" ++ safeName
                    ++ ": " ++ template f ++ ";"]
       end).

Definition processStyleJSON (data : list styleRecord)
  (variablesLookup : obj definition) : list string :=
  let text :=
    flat_map (fun r => match r with
                       | TEXT s => [textDeclaration variablesLookup s]
                       | _ => []
                       end) data in
  let effectDefs :=
    flat_map (fun r => match r with
                       | EFFECT name effects =>
                           effectDeclarations variablesLookup name effects
                       | _ => []
                       end) data in
  [ "/* styles */"; ":root {";
    "  " ++ join (newline ++ "  ") (text +++ effectDefs);
    "}" ].

(* ------------------------------------------------------------------------- *)
(** ** The specification's wording, for comparison *)



(** The blocks of a collection without colour schemes, mode by mode: the
    first mode is the [:root] block, every later one a class of its own. *)
Definition rootBlock (key : string) (entry : string * list definition)
  : list string :=
  [ "/* " ++ key ++ ": " ++ fst entry ++ " (default) */";
    ":root {";
    drawCSSPropLines (Some (snd entry)) "  ";
    "}" ].

Definition themeClassBlock (key : string) (entry : string * list definition)
  : list string :=
  [ "/* " ++ key ++ ": " ++ fst entry ++ " */";
    ".wds-theme-" ++ key ++ "-" ++ fst entry ++ " {";
    drawCSSPropLines (Some (snd entry)) "  ";
    "}" ].

Definition themeBlocksBySpec (key : string)
  (modes : list (string * list definition)) : list string :=
  match modes with
  | [] => []
  | first :: later => rootBlock key first +++ flat_map (themeClassBlock key) later
  end.

(** The blocks of a list of colour schemes: the first scheme is the [:root]
    block, every later one a class named after the scheme with the configured
    text cut out. *)
Definition schemeBlocksBySpec (definitions : obj (list definition))
  (key : string) (remove : option string) (pad : string) (schemes : list string)
  : list string :=
  match schemes with
  | [] => []
  | first :: later =>
      [ pad ++ "/* " ++ key ++ ": " ++ first ++ " (default) */";
        pad ++ ":root {";
        drawCSSPropLines (obj_get first definitions) (pad ++ "  ");
        pad ++ "}" ]
      +++ flat_map
            (fun scheme =>
               [ pad ++ "/* " ++ key ++ ": " ++ scheme ++ " */";
                 pad ++ ".wds-scheme-" ++ key ++ "-"
                 ++ replace scheme (template remove) "" ++ " {";
                 drawCSSPropLines (obj_get scheme definitions) (pad ++ "  ");
                 pad ++ "}" ])
            later
  end.

(** No leaf of the tree has extension data of a known namespace. *)
Fixpoint leaves_lack_extensions (object : token) : bool :=
  match object with
  | Token _ (Some _) _ extensions_ _ =>
      match getNamespaceData extensions_ with
      | Some _ => false
      | None => true
      end
  | Token _ None _ _ children =>
      (fix all (cs : list (string * token)) : bool :=
         match cs with
         | [] => true
         | (_, value) :: r => leaves_lack_extensions value && all r
         end) children
  end.

(** The last definition of a list that carries a given id. *)
Definition lastWithId (id : string) (items : list definition) : option definition :=
  find (fun d => template (figmaId d) =? id) (rev items).





(* ------------------------------------------------------------------------- *)
(** ** Notions for the statements *)

Unset Implicit Arguments.

(** Induction on a token with the children as hypotheses. *)
Section TokenInduction.
Variable P : token -> Prop.
Hypothesis step :
  forall type_ value_ description_ extensions_ children,
    Forall (fun c => P (snd c)) children ->
    P (Token type_ value_ description_ extensions_ children).

Fixpoint token_induction (object : token) : P object :=
  match object with
  | Token type_ value_ description_ extensions_ children =>
      step type_ value_ description_ extensions_ children
        ((fix each (cs : list (string * token)) : Forall (fun c => P (snd c)) cs :=
            match cs with
            | [] => Forall_nil _
            | (key, value) :: r =>
                Forall_cons (key, value) (token_induction value) (each r)
            end) children)
  end.
End TokenInduction.

(** The walks of the children, as [traverse] builds them. *)
Definition walksOf replacements definitionsKey prefix convertPixelToRem
  (children : list (string * token)) :=
  map (fun c => (fst c, traverse replacements definitionsKey prefix
                          convertPixelToRem (snd c)))
    children.

(** Every definition of every mode carries the sentinel id. *)
Definition sentinel_only (definitions : obj (list definition)) : Prop :=
  forall mode l d, In (mode, l) definitions -> In d l ->
                   figmaId d = Some "UNDEFINED".

(** The table is keyed by the id of its definitions, one entry for each id. *)
Definition keyed (table : obj definition) : Prop :=
  NoDup (map fst table)
  /\ forall k x, In (k, x) table -> k = template (figmaId x).

(** A property of the table is the one it had at the start, or the default
    one, added with its warning. *)
Definition ensured (collections : obj collection)
  (st : obj collection * list string) : Prop :=
  forall k,
    obj_get k (fst st) = obj_get k collections
    \/ (obj_get k (fst st) = Some (defaultCollection k)
        /\ In (addedWarning k) (snd st)).


(** The separators of an alias. *)
Definition is_separator (c : ascii) : bool := is_char "." c || is_char " " c.
Definition no_separator (s : string) : bool :=
  all_chars (fun c => negb (is_separator c)) s.

(** The text after the first segment of a dotted or hyphenated path. *)
Definition tail_with (sep : string) (path : list string) : string :=
  match path with
  | [] => ""
  | _ => sep ++ join sep path
  end.

(** The alias of the token at [path] in the collection [definitionsKey]. *)
Definition aliasOf (definitionsKey : string) (path : list string) : string :=
  "{" ++ join "." (definitionsKey :: path) ++ "}".

(* ------------------------------------------------------------------------- *)
(** ** Notions for the further properties *)

(** A call of the leaf branch of [traverse]: the leaf's own members and the
    type and the keys that the walk has accumulated on the way to it. *)
Record leafCall : Type := mkLeafCall {
  call_type : option string;
  call_value : jsval;
  call_description : option string;
  call_extensions : option (obj extensionData);
  call_currentType : string;
  call_keys : list string
}.

(** The leaf calls of a walk, in the order of the walk. *)
Fixpoint leafCalls (object : token) (currentType : string) (keys : list string)
  {struct object} : list leafCall :=
  match object with
  | Token type_ (Some value_) description_ extensions_ _ =>
      [mkLeafCall type_ value_ description_ extensions_ currentType keys]
  | Token type_ None _ _ children =>
      let type := or_string type_ currentType in
      let calls :=
        (fix each (cs : list (string * token)) :=
           match cs with
           | [] => []
           | (key, value) :: r => (key, leafCalls value) :: each r
           end) children in
      flat_map (fun c => if charAt0 (fst c) =? "$" then []
                         else snd c type (keys +++ [fst c]))
        (obj_entries calls)
  end.

Definition callsOf (children : list (string * token)) :=
  map (fun c => (fst c, leafCalls (snd c))) children.

Definition runLeaf replacements definitionsKey prefix convertPixelToRem
  (definitions : obj (list definition)) (c : leafCall) : obj (list definition) :=
  traverse_leaf replacements definitionsKey prefix convertPixelToRem definitions
    (call_type c) (call_value c) (call_description c) (call_extensions c)
    (call_currentType c) (call_keys c).

(** [path] leads from a node to a leaf below it, through members whose names
    do not begin with [$]. *)
Inductive leaf_at : token -> list string -> Prop :=
| leaf_here type_ value_ description_ extensions_ children :
    leaf_at (Token type_ (Some value_) description_ extensions_ children) []
| leaf_below type_ description_ extensions_ children key child path :
    In (key, child) children ->
    (charAt0 key =? "$") = false ->
    leaf_at child path ->
    leaf_at (Token type_ None description_ extensions_ children) (key :: path).

(** Every definition of every mode satisfies [P]. *)
Definition every_definition (P : definition -> Prop)
  (definitions : obj (list definition)) : Prop :=
  forall mode l d, obj_get mode definitions = Some l -> In d l -> P d.

(** The definitions that the leaf branch pushes for a leaf call, each with
    its mode. *)
Definition leafDefinitions replacements definitionsKey prefix convertPixelToRem
  (c : leafCall) : list (string * definition) :=
  let property := propertyOf (call_keys c) in
  let propertyName := propertyNameOf (call_keys c) in
  let type := or_string (call_type c) (call_currentType c) in
  let description := or_string (call_description c) "" in
  match getNamespaceData (call_extensions c) with
  | Some (mkExtensionData figmaId (Some modes)) =>
      map (fun m =>
             (fst m,
              mkDefinition property propertyName figmaId description
                (valueWithReplacements replacements
                   (valueToCSS property (snd m) definitionsKey convertPixelToRem
                      prefix))
                type))
        (obj_entries modes)
  | Some (mkExtensionData figmaId None) =>
      [("default",
        mkDefinition property propertyName figmaId description
          (valueWithReplacements replacements
             (valueToCSS property (call_value c) definitionsKey convertPixelToRem ""))
          type)]
  | None =>
      [("default",
        mkDefinition property propertyName (Some "UNDEFINED") description
          (valueWithReplacements replacements
             (valueToCSS property (call_value c) definitionsKey convertPixelToRem ""))
          type)]
  end.

Definition pushPair (definitions : obj (list definition))
  (md : string * definition) : obj (list definition) :=
  push_definition (fst md) (snd md) definitions.

(** The definitions of a mode among pairs of mode and definition. *)
Definition ofMode (mode : string) (pairs : list (string * definition))
  : list definition :=
  map snd (filter (fun md => fst md =? mode) pairs).

Definition listOf {A : Type} (l : option (list A)) : list A :=
  match l with Some x => x | None => [] end.

(** The second object has every mode of the first, with the same definitions
    in front. *)
Definition extends (before after : obj (list definition)) : Prop :=
  forall mode l, obj_get mode before = Some l ->
                 exists added, obj_get mode after = Some (l +++ added).

Definition lowercase (s : string) : bool := all_chars (fun c => negb (is_upper c)) s.

Definition lowercase_value (d : definition) : Prop :=
  match value d with
  | JStr s => lowercase s = true
  | JNum _ => True
  end.

(** A node declares no type of its own, and neither does a node below it. *)
Definition untyped (type_ : option string) : bool :=
  match type_ with None => true | Some t => t =? "" end.

Fixpoint declares_no_type (object : token) : bool :=
  match object with
  | Token type_ _ _ _ children =>
      untyped type_
      && (fix all (cs : list (string * token)) : bool :=
            match cs with
            | [] => true
            | (_, value) :: r => declares_no_type value && all r
            end) children
  end.

(** The characters of a sanitized name: lower-case letters, digits and the
    hyphen. *)
Definition is_name_char (c : ascii) : bool :=
  is_lower c || is_digit c || is_char "-" c.

(** The name of the custom property of a text style, as [processStyleJSON]
    derives it from the style name. *)
Definition textName (name : string) : string :=
  toLowerCase
    (replace_runs (fun c => negb (is_alnum c)) "-"
       (drop_while (fun c => negb (is_alnum c)) name)).


(** A font name that gives no style of its own. *)
Definition styleless (fontName_ : option fontName) : bool :=
  match fontName_ with
  | Some f => or_string (style f) "" =? ""
  | None => true
  end.

Definition isText (r : styleRecord) : bool :=
  match r with TEXT _ => true | _ => false end.
Definition isEffect (r : styleRecord) : bool :=
  match r with EFFECT _ _ => true | _ => false end.

(** A visible sub-effect of a kind is among the effects. *)
Definition hasVisible (kind : string) (effects : list effect) : bool :=
  existsb (fun e => visible e && includes (effect_type e) kind) effects.

(** The key of a definition in the lookup table of [initialize]. *)
Definition lookupKey (d : definition) : string := template (figmaId d).

(** [mergeObjects] of the plugin: the own properties of [source], then those
    of [extra], written into a new object.  An argument that is no object is
    [None] and contributes nothing. *)
Definition mergeObjects {V : Type} (source extra : option (obj V)) : obj V :=
  let copy (target : obj V) (from : option (obj V)) :=
    match from with
    | Some o => fold_left (fun t e => obj_set (fst e) (snd e) t) (obj_entries o) target
    | None => target
    end in
  copy (copy [] source) extra.

(** [A[k]] for an argument of [mergeObjects]. *)
Definition member {V : Type} (k : string) (o : option (obj V)) : option V :=
  match o with Some x => obj_get k x | None => None end.

Definition wellKeyed {V : Type} (o : option (obj V)) : Prop :=
  match o with Some x => NoDup (map fst x) | None => True end.

(* ------------------------------------------------------------------------- *)
(** ** Sample documents *)

(** A lookup table with two weights. *)
Definition weightLookup : obj definition :=
  [ ("V:1", mkDefinition "--wds-typography-weight-bold" "typographyWeightBold"
              (Some "V:1") "" (JStr "700") "number");
    ("V:2", mkDefinition "--wds-typography-weight-between"
              "typographyWeightBetween" (Some "V:2") "" (JStr "750") "number") ].

(** A text style and an effect style whose bound variables name ids that
    [weightLookup] lacks. *)
Definition headingStyle : textStyle :=
  mkTextStyle "Heading/Large 1" (Some (Dec 32 0)) None None None
    (Some (mkFontName (Some "Inter") (Some "Semi Bold Italic")))
    [ ("fontWeight", BRef (Some "V:404")); ("fontSize", BRef (Some "V:405")) ].



(** A token document: primitives without extension data, one of them an
    alias to another; a themed collection with two modes; a collection that
    no settings name; and a member that is no collection. *)
Definition leaf (v : string) : token := Token None (Some (JStr v)) None None [].
Definition group (children : list (string * token)) : token :=
  Token None None None None children.
Definition leafWithModes (id : string) (modes : obj jsval) : token :=
  Token None (Some (JStr "")) None
    (Some [("com.figma.wds", mkExtensionData (Some id) (Some modes))]) [].

Definition primitives : token :=
  group [ ("blue", group [ ("500", leaf "#0000ff");
                           ("50", leaf "#eeeeff");
                           ("link", leaf "{@color_primitives.blue.500}") ]) ].

Definition themed : token :=
  group [ ("bg", leafWithModes "V:1"
                   [ ("wds_light", JStr "{@color.fg}");
                     ("wds_dark", JStr "#000000") ]) ].

Definition spacing : token :=
  group [ ("gap", leafWithModes "V:2" [ ("desktop", JStr "16"); ("mobile", JStr "8") ]) ].

Definition sampleTokens : obj token :=
  [ ("@color_primitives", primitives);
    ("@color", themed);
    ("@spacing_scale", spacing);
    ("version", group []) ].

(* ========================================================================= *)
(** * Facts about the embedding *)

(** ** Objects *)

Ltac string_cases :=
  repeat match goal with
    | |- context [String.eqb ?a ?b] => destruct (String.eqb_spec a b); subst
    | H : context [String.eqb ?a ?b] |- _ => destruct (String.eqb_spec a b); subst
    end.

Section ObjectFacts.
Variable V : Type.
Implicit Types (o : obj V) (k : string) (v : V).

Lemma obj_get_set k k' v o :
  obj_get k' (obj_set k v o) = if k =? k' then Some v else obj_get k' o.
Proof.
  induction o as [|[k0 v0] r IH]; simpl.
  - string_cases; congruence.
  - destruct (String.eqb_spec k0 k); subst; simpl; [|rewrite IH];
      string_cases; congruence.
Qed.


Lemma obj_get_In k v o : obj_get k o = Some v -> In (k, v) o.
Proof.
  induction o as [|[k0 v0] r IH]; simpl; [discriminate|].
  destruct (String.eqb_spec k0 k); subst.
  - intros [= ->]. now left.
  - auto.
Qed.


Lemma obj_get_key k v o : obj_get k o = Some v -> In k (map fst o).
Proof.
  intros H. apply obj_get_In in H. now apply (in_map fst) in H.
Qed.

Lemma insert_index_In n (e x : string * V) l :
  In x (map snd (insert_index n e l)) <-> x = e \/ In x (map snd l).
Proof.
  induction l as [|[n' e'] r IH]; simpl.
  - intuition.
  - destruct (n <=? n')%N; simpl; [|rewrite IH]; intuition.
Qed.

Lemma index_entries_In (x : string * V) o :
  In x (map snd (index_entries o))
  <-> In x o /\ array_index (fst x) <> None.
Proof.
  induction o as [|[k0 v0] r IH]; simpl; [tauto|].
  destruct (array_index k0) eqn:E.
  - rewrite insert_index_In, IH. split.
    + intros [->|[H1 H2]]; simpl; [rewrite E|]; intuition congruence.
    + intros [[<-|H1] H2]; auto.
  - rewrite IH. split; [tauto|].
    intros [[<-|H1] H2]; simpl in *; tauto.
Qed.

Lemma obj_entries_In (x : string * V) o : In x (obj_entries o) <-> In x o.
Proof.
  unfold obj_entries, named_entries.
  rewrite in_app_iff, index_entries_In, filter_In.
  destruct (array_index (fst x)); intuition congruence.
Qed.

(** Every entry of the sorted part carries the index of its name. *)
Lemma index_entries_tagged o :
  Forall (fun t => array_index (fst (snd t)) = Some (fst t)) (index_entries o).
Proof.
  induction o as [|[k0 v0] r IH]; simpl; [constructor|].
  destruct (array_index k0) eqn:E; [|exact IH].
  induction IH as [|[n' e'] l Hx Hl IHl]; simpl.
  - repeat constructor. exact E.
  - destruct (n <=? n')%N; repeat constructor; auto.
Qed.

Lemma obj_get_insert_index k n k0 v0 (l : list (N * (string * V))) :
  array_index k0 = Some n ->
  Forall (fun t => array_index (fst (snd t)) = Some (fst t)) l ->
  obj_get k (map snd (insert_index n (k0, v0) l))
  = if k0 =? k then Some v0 else obj_get k (map snd l).
Proof.
  intros E Hl.
  induction Hl as [|[n' [k1 v1]] l Hx Hl IH]; simpl; [reflexivity|].
  simpl in Hx.
  destruct (N.leb_spec n n'); simpl; [reflexivity|].
  rewrite IH.
  destruct (String.eqb_spec k1 k); subst; [|reflexivity].
  destruct (String.eqb_spec k0 k); subst; [|reflexivity].
  rewrite E in Hx. injection Hx as ->. lia.
Qed.

Lemma obj_get_named k o :
  array_index k = None -> obj_get k (named_entries o) = obj_get k o.
Proof.
  intros E. induction o as [|[k0 v0] r IH]; simpl; [reflexivity|].
  destruct (array_index k0) eqn:E0; simpl.
  - destruct (String.eqb_spec k0 k); [congruence|exact IH].
  - now rewrite IH.
Qed.

Lemma obj_get_app k o1 o2 :
  obj_get k (o1 +++ o2)
  = match obj_get k o1 with Some v => Some v | None => obj_get k o2 end.
Proof.
  induction o1 as [|[k0 v0] r IH]; simpl; [reflexivity|].
  now destruct (k0 =? k).
Qed.

Lemma obj_get_indexed k o :
  obj_get k (map snd (index_entries o))
  = match array_index k with Some _ => obj_get k o | None => None end.
Proof.
  induction o as [|[k0 v0] r IH]; simpl.
  - now destruct (array_index k).
  - destruct (array_index k0) eqn:E0.
    + rewrite (obj_get_insert_index k n k0 v0 _ E0 (index_entries_tagged r)), IH.
      destruct (String.eqb_spec k0 k); subst; [now rewrite E0|reflexivity].
    + rewrite IH. destruct (String.eqb_spec k0 k); subst; [now rewrite E0|reflexivity].
Qed.

(** Enumeration reorders an object and changes no property. *)
Lemma obj_get_entries k o : obj_get k (obj_entries o) = obj_get k o.
Proof.
  unfold obj_entries. rewrite obj_get_app, obj_get_indexed.
  destruct (array_index k) eqn:E.
  - destruct (obj_get k o) eqn:G; [reflexivity|].
    destruct (obj_get k (named_entries o)) eqn:G'; [|reflexivity].
    apply obj_get_In in G'. unfold named_entries in G'.
    apply filter_In in G' as [_ G']. simpl in G'. now rewrite E in G'.
  - now apply obj_get_named.
Qed.

(** Without array-index names the enumeration order is the creation order. *)
Lemma obj_entries_named o :
  Forall (fun e => array_index (fst e) = None) o -> obj_entries o = o.
Proof.
  intros H. unfold obj_entries, named_entries.
  assert (E : index_entries o = []).
  { induction H as [|[k0 v0] r Hx Hr IH]; simpl in *; [reflexivity|].
    now rewrite Hx. }
  rewrite E. simpl.
  induction H as [|[k0 v0] r Hx Hr IH]; simpl in *; [reflexivity|].
  rewrite Hx in *. simpl. f_equal. now apply IH.
Qed.
End ObjectFacts.

(* ------------------------------------------------------------------------- *)
(** ** The value converter *)

Lemma digits_do_not_open_an_alias s :
  valueIsDigits s = true -> (charAt0 s =? "{") = false.
Proof.
  destruct s as [|c r]; [reflexivity|].
  destruct (Ascii.eqb_spec c "{") as [->|Hc]; [discriminate|].
  intros _. simpl. destruct (Ascii.eqb_spec c "{"); [contradiction|reflexivity].
Qed.

(** What the dimension branch of [valueToCSS] returns: the integer that
    [parseInt] reads from the value, over 16, in [rem]; or the value as it is,
    in [px]. *)
Lemma dimension_conversion property value definitionsKey prefix :
  valueIsDigits (toString value) = true ->
  includes property "weight" = false ->
  includes property "ratio-" = false ->
  valueToCSS property value definitionsKey true prefix
  = JStr (num_to_string (div16 (parseInt (toString value))) ++ "rem")
  /\ valueToCSS property value definitionsKey false prefix
     = JStr (toString value ++ "px").
Proof.
  intros Hd Hw Hr. unfold valueToCSS.
  rewrite (digits_do_not_open_an_alias _ Hd), Hd, Hw, Hr. now split.
Qed.

Lemma span_all (p : ascii -> bool) a c rest :
  all_chars p a = true -> p c = false ->
  span p (a ++ String c rest) = (a, String c rest).
Proof.
  intros Ha Hc. induction a as [|x a IH]; simpl.
  - now rewrite Hc.
  - simpl in Ha. apply andb_true_iff in Ha as [Hx Ha].
    now rewrite Hx, (IH Ha).
Qed.

Lemma span_whole (p : ascii -> bool) a :
  all_chars p a = true -> span p a = (a, "").
Proof.
  induction a as [|x a IH]; simpl; [reflexivity|].
  intros Ha. apply andb_true_iff in Ha as [Hx Ha]. now rewrite Hx, (IH Ha).
Qed.

(** [parseInt] stops at the decimal point. *)
Lemma parseInt_drops_the_fraction d int frac :
  is_digit d = true -> all_chars is_digit int = true ->
  parseInt (String d int ++ "." ++ frac) = parseInt (String d int).
Proof.
  intros Hd Hint. unfold parseInt.
  assert (E1 : span is_digit (String d int ++ "." ++ frac)
               = (String d int, "." ++ frac)).
  { apply span_all; [simpl; now rewrite Hd|reflexivity]. }
  assert (E2 : span is_digit (String d int) = (String d int, "")).
  { apply span_whole. simpl. now rewrite Hd. }
  destruct d as [[] [] [] [] [] [] [] []]; try discriminate Hd;
    simpl append in *; cbv iota; rewrite E1, E2; reflexivity.
Qed.

Lemma valueIsDigits_integer d int :
  is_digit d = true -> all_chars is_digit int = true ->
  valueIsDigits (String d int) = true.
Proof.
  intros Hd Hint. unfold valueIsDigits.
  assert (E : span is_digit (String d int) = (String d int, "")).
  { apply span_whole. simpl. now rewrite Hd. }
  destruct d as [[] [] [] [] [] [] [] []]; try discriminate Hd;
    cbv iota; rewrite E; reflexivity.
Qed.

Lemma valueIsDigits_decimal d int f frac :
  is_digit d = true -> all_chars is_digit int = true ->
  is_digit f = true -> all_chars is_digit frac = true ->
  valueIsDigits (String d int ++ "." ++ String f frac) = true.
Proof.
  intros Hd Hint Hf Hfrac. unfold valueIsDigits.
  assert (E1 : span is_digit (String d int ++ "." ++ String f frac)
               = (String d int, "." ++ String f frac)).
  { apply span_all; [simpl; now rewrite Hd|reflexivity]. }
  assert (E2 : span is_digit (String f frac) = (String f frac, "")).
  { apply span_whole. simpl. now rewrite Hf. }
  destruct d as [[] [] [] [] [] [] [] []]; try discriminate Hd;
    simpl append in *; cbv iota; rewrite E1; cbv beta iota; rewrite E2; reflexivity.
Qed.

(** A decimal dimension converts to the [rem] of its integer part. *)
Lemma fraction_is_ignored property d int f frac definitionsKey prefix :
  is_digit d = true -> all_chars is_digit int = true ->
  is_digit f = true -> all_chars is_digit frac = true ->
  includes property "weight" = false ->
  includes property "ratio-" = false ->
  valueToCSS property (JStr (String d int ++ "." ++ String f frac)) definitionsKey
    true prefix
  = valueToCSS property (JStr (String d int)) definitionsKey true prefix.
Proof.
  intros Hd Hint Hf Hfrac Hw Hr.
  rewrite (proj1 (dimension_conversion property
                    (JStr (String d int ++ "." ++ String f frac))
                    definitionsKey prefix
                    (valueIsDigits_decimal d int f frac Hd Hint Hf Hfrac) Hw Hr)).
  rewrite (proj1 (dimension_conversion property (JStr (String d int))
                    definitionsKey prefix
                    (valueIsDigits_integer d int Hd Hint) Hw Hr)).
  cbv [toString]. now rewrite parseInt_drops_the_fraction.
Qed.

(** C3.  With rem conversion on, a purely numeric value is to become the
    value divided by 16 with the unit [rem], decimals included.  The
    converter admits a decimal such as [24.5] as a dimension and then reads
    it with [parseInt], which drops the fraction: [24.5] gives [1.5rem], the
    result for [24], where [24.5 / 16] is [1.53125].  Integers convert as
    stated, and without conversion the number is kept and given [px]. *)
Theorem rem_conversion_drops_the_fraction :
  valueToCSS "--wds-size-space" (JStr "24.5") "@size" true "wds-size" = JStr "1.5rem"
  /\ valueToCSS "--wds-size-space" (JNum (Dec 245 1)) "@size" true "wds-size"
     = JStr "1.5rem"
  /\ valueToCSS "--wds-size-space" (JStr "24") "@size" true "wds-size" = JStr "1.5rem"
  /\ valueToCSS "--wds-size-space" (JStr "16") "@size" true "wds-size" = JStr "1rem"
  /\ num_to_string (Dec 153125 5) = "1.53125"
  /\ valueToCSS "--wds-size-space" (JStr "24.5") "@size" false "wds-size"
     = JStr "24.5px".
Proof. repeat split; vm_compute; reflexivity. Qed.

(* ------------------------------------------------------------------------- *)
(** ** The CSS emitter *)

Lemma forEach_later_schemes definitions key remove pad i schemes :
  forEach_indexed (schemeBlock definitions key remove pad) (S i) schemes
  = flat_map (schemeBlock definitions key remove pad 1) schemes.
Proof.
  revert i. induction schemes as [|x r IH]; intros i; simpl; [reflexivity|].
  now rewrite IH.
Qed.

Lemma forEach_schemes_by_spec definitions key remove pad schemes :
  forEach_indexed (schemeBlock definitions key remove pad) 0 schemes
  = schemeBlocksBySpec definitions key remove pad schemes.
Proof.
  destruct schemes as [|first later]; simpl; [reflexivity|].
  now rewrite forEach_later_schemes.
Qed.

(** C4, as amended.  A collection with colour schemes is drawn as the block
    [:root] of the first light scheme, then one block for each later light
    scheme under the class [.wds-scheme-<collection>-<name>], the name being
    the scheme with the text to strip cut out, then the dark schemes, if any,
    in the same way inside their media query.  With the light schemes
    [a_light] and [b_light] and [_light] as the text to strip these are the
    [:root] block with the definitions of [a_light] and then the block of
    [.wds-scheme-<collection>-b] with those of [b_light]. *)
Theorem scheme_blocks_in_order (definitions : obj (list definition))
  (key : string) :
  (forall settings schemes,
      colorSchemes settings = Some schemes ->
      fileStringCSSFromProcessedObject definitions settings key
      = schemeBlocksBySpec definitions key (colorSchemeLightRemove settings) ""
          schemes
        +++ match colorSchemesDark settings with
            | Some dark =>
                ["@media (prefers-color-scheme: dark) {"]
                +++ schemeBlocksBySpec definitions key
                      (colorSchemeDarkRemove settings) "  " dark
                +++ ["}"]
            | None => []
            end)
  /\ schemeBlocksBySpec definitions key (Some "_light") "" ["a_light"; "b_light"]
     = [ "/* " ++ key ++ ": a_light (default) */";
         ":root {";
         drawCSSPropLines (obj_get "a_light" definitions) "  ";
         "}";
         "/* " ++ key ++ ": b_light */";
         ".wds-scheme-" ++ key ++ "-b {";
         drawCSSPropLines (obj_get "b_light" definitions) "  ";
         "}" ].
Proof.
  split; [|reflexivity].
  intros settings schemes H. unfold fileStringCSSFromProcessedObject.
  rewrite H, forEach_schemes_by_spec.
  destruct (colorSchemesDark settings) as [dark|]; [|reflexivity].
  now rewrite forEach_schemes_by_spec.
Qed.

Lemma scheme_blocks_in_order_witness :
  let definitions : obj (list definition) :=
    [ ("a_light", [mkDefinition "--wds-color-bg" "colorBg" (Some "V:1") ""
                     (JStr "#ffffff") "color"]);
      ("b_light", [mkDefinition "--wds-color-bg" "colorBg" (Some "V:1") ""
                     (JStr "#fff8e7") "color"]) ] in
  fileStringCSSFromProcessedObject definitions
    (mkSettings "color" (Some ["a_light"; "b_light"]) None (Some "_light") None
       None None)
    "color"
  = [ "/* color: a_light (default) */"; ":root {"; "  --wds-color-bg: #ffffff;"; "}";
      "/* color: b_light */"; ".wds-scheme-color-b {";
      "  --wds-color-bg: #fff8e7;"; "}" ].
Proof.
  intros definitions.
  rewrite (proj1 (scheme_blocks_in_order definitions "color")
             (mkSettings "color" (Some ["a_light"; "b_light"]) None (Some "_light")
                None None None)
             ["a_light"; "b_light"] eq_refl).
  reflexivity.
Defined.

(** What the claim C4 says fails: the class of the second light scheme is
    named with [scheme-], and no line of the collection holds [theme-]. *)
Lemma scheme_class_is_not_a_theme_class :
  let lines :=
    fileStringCSSFromProcessedObject []
      (mkSettings "color" (Some ["a_light"; "b_light"]) None (Some "_light")
         None None None)
      "color" in
  nth_error lines 5 = Some ".wds-scheme-color-b {"
  /\ ~ In ".wds-theme-color-b {" lines
  /\ forallb (fun l => negb (includes l "theme-")) lines = true.
Proof.
  intros lines. split; [reflexivity|]. split; [|vm_compute; reflexivity].
  vm_compute. intuition discriminate.
Qed.






Lemma modeBlocks_later key entries :
  modeBlocks key true entries = flat_map (themeClassBlock key) entries.
Proof.
  induction entries as [|e r IH]; simpl; [reflexivity|].
  now rewrite IH.
Qed.

(** C5, as amended.  A collection without colour schemes is drawn mode by
    mode in the enumeration order of its definitions, which is the order of
    creation when no mode name is an array index: the first mode is the
    [:root] block and every later mode [m] is a block of the class
    [.wds-theme-<collectionKey>-<m>]. *)
Theorem theme_blocks_by_mode (definitions : obj (list definition))
  (settings : collectionSettings) (key : string) :
  colorSchemes settings = None ->
  fileStringCSSFromProcessedObject definitions settings key
  = themeBlocksBySpec key (obj_entries definitions)
  /\ (Forall (fun e => array_index (fst e) = None) definitions ->
      obj_entries definitions = definitions).
Proof.
  intros H. split.
  - unfold fileStringCSSFromProcessedObject. rewrite H.
    destruct (obj_entries definitions) as [|e r]; simpl; [reflexivity|].
    now rewrite modeBlocks_later.
  - apply obj_entries_named.
Qed.

Lemma theme_blocks_by_mode_witness :
  let definitions : obj (list definition) :=
    [ ("desktop", [mkDefinition "--wds-size-gap" "sizeGap" (Some "V:7") ""
                     (JStr "1rem") "number"]);
      ("mobile", [mkDefinition "--wds-size-gap" "sizeGap" (Some "V:7") ""
                    (JStr "0.5rem") "number"]) ] in
  fileStringCSSFromProcessedObject definitions (onlyPrefix "size") "size"
  = [ "/* size: desktop (default) */"; ":root {"; "  --wds-size-gap: 1rem;"; "}";
      "/* size: mobile */"; ".wds-theme-size-mobile {";
      "  --wds-size-gap: 0.5rem;"; "}" ]
  /\ obj_entries definitions = definitions.
Proof.
  intros definitions.
  destruct (theme_blocks_by_mode definitions (onlyPrefix "size") "size" eq_refl)
    as [E1 E2].
  split.
  - rewrite E1. reflexivity.
  - apply E2. repeat constructor.
Defined.

(** What the claim C5 says fails twice: the class of a later mode is
    [.wds-theme-...], no line holds [theme-scope-]; and a mode named by an
    array index is drawn before a mode that was created earlier. *)
Lemma theme_class_is_not_theme_scope :
  let lines :=
    fileStringCSSFromProcessedObject [("light", []); ("dark", [])]
      (onlyPrefix "size") "size" in
  let numbered :=
    fileStringCSSFromProcessedObject [("b", []); ("1", [])]
      (onlyPrefix "size") "size" in
  nth_error lines 5 = Some ".wds-theme-size-dark {"
  /\ forallb (fun l => negb (includes l "theme-scope-")) lines = true
  /\ nth_error numbered 0 = Some "/* size: 1 (default) */"
  /\ nth_error numbered 5 = Some ".wds-theme-size-b {".
Proof. repeat split; vm_compute; reflexivity. Qed.

(* ------------------------------------------------------------------------- *)
(** ** The style processor *)

Lemma isHundreds_spec s :
  isHundreds s = true
  <-> In s ["100"; "200"; "300"; "400"; "500"; "600"; "700"; "800"; "900"].
Proof.
  split.
  - destruct s as [|d [|z1 [|z2 [|? ?]]]]; try discriminate.
    + simpl. destruct z1 as [[] [] [] [] [] [] [] []]; discriminate.
    + simpl.
      destruct z1 as [[] [] [] [] [] [] [] []]; try discriminate;
        destruct z2 as [[] [] [] [] [] [] [] []]; try discriminate.
      destruct d as [[] [] [] [] [] [] [] []]; vm_compute; intuition discriminate.
    + simpl.
      destruct z1 as [[] [] [] [] [] [] [] []]; try discriminate;
        destruct z2 as [[] [] [] [] [] [] [] []]; discriminate.
  - simpl. intros H.
    repeat (destruct H as [<-|H]; [reflexivity|]). destruct H.
Qed.

Lemma value_is_spec s d : value_is s d = true <-> value d = JStr s.
Proof.
  unfold value_is. destruct (value d) as [v|x].
  - split.
    + intros H. apply String.eqb_eq in H. now subst.
    + intros [= ->]. apply String.eqb_refl.
  - split; discriminate.
Qed.

(** C7, as amended.  A bound value that is one of the texts [100], [200],
    ..., [900] is looked up among the values of the table: the first
    definition in enumeration order whose value is that very string gives
    [var(<its property>)], and the text itself is returned when there is
    none.  Any other non-empty text, three digits or not, is returned as it
    is. *)
Theorem hundreds_weight_substitution (variablesLookup : obj definition)
  (s fallback : string) :
  (isHundreds s = true ->
   valueFromPossibleVariable variablesLookup (BStr s) fallback
   = match find (value_is s) (obj_values variablesLookup) with
     | Some variable => "var(" ++ property variable ++ ")"
     | None => s
     end
   /\ (forall variable,
         find (value_is s) (obj_values variablesLookup) = Some variable ->
         In variable (obj_values variablesLookup) /\ value variable = JStr s)
   /\ ((forall d, In d (obj_values variablesLookup) -> value d <> JStr s) ->
       valueFromPossibleVariable variablesLookup (BStr s) fallback = s))
  /\ (isHundreds s = false -> s <> "" ->
      valueFromPossibleVariable variablesLookup (BStr s) fallback = s).
Proof.
  split.
  - intros H. unfold valueFromPossibleVariable. rewrite H.
    split; [reflexivity|]. split.
    + intros variable E. apply find_some in E as [HIn Hv].
      split; [exact HIn|]. now apply value_is_spec.
    + intros Hnone.
      destruct (find (value_is s) (obj_values variablesLookup)) as [d|] eqn:E;
        [|reflexivity].
      apply find_some in E as [HIn Hv]. apply value_is_spec in Hv.
      now destruct (Hnone d HIn).
  - intros H Hs. unfold valueFromPossibleVariable. rewrite H.
    destruct (String.eqb_spec s ""); congruence.
Qed.

Lemma hundreds_weight_substitution_witness :
  valueFromPossibleVariable weightLookup (BStr "700") "400"
  = "var(--wds-typography-weight-bold)"
  /\ valueFromPossibleVariable weightLookup (BStr "750") "400" = "750".
Proof.
  split.
  - rewrite (proj1 (proj1 (hundreds_weight_substitution weightLookup "700" "400")
                      eq_refl)).
    reflexivity.
  - apply (proj2 (hundreds_weight_substitution weightLookup "750" "400")).
    + reflexivity.
    + discriminate.
Defined.

(** What the claim C7 says fails for a three-digit text that is not a
    multiple of 100: the table holds a definition whose value is [750], and
    the bound value [750] is returned as it is. *)
Lemma three_digits_are_not_all_weights :
  In (JStr "750") (map value (obj_values weightLookup))
  /\ valueFromPossibleVariable weightLookup (BStr "750") "400" = "750"
  /\ valueFromPossibleVariable weightLookup (BStr "750") "400"
     <> "var(--wds-typography-weight-between)".
Proof.
  split; [vm_compute; auto|]. split; [reflexivity|].
  vm_compute. discriminate.
Qed.














(* ------------------------------------------------------------------------- *)
(** ** The tree traverser and the lookup table *)



Lemma traverse_group replacements definitionsKey prefix convertPixelToRem
  type_ description_ extensions_ children definitions currentType keys :
  traverse replacements definitionsKey prefix convertPixelToRem
    (Token type_ None description_ extensions_ children) definitions currentType keys
  = fold_left (visit_child (or_string type_ currentType) keys)
      (obj_entries (walksOf replacements definitionsKey prefix convertPixelToRem
                      children))
      definitions.
Proof.
  simpl. do 2 f_equal. unfold walksOf.
  induction children as [|[key value] r IH]; simpl; [reflexivity|].
  now rewrite IH.
Qed.


Lemma In_obj_set (V : Type) (k k0 : string) (v v0 : V) (o : obj V) :
  In (k, v) (obj_set k0 v0 o) -> (k, v) = (k0, v0) \/ In (k, v) o.
Proof.
  induction o as [|[k1 v1] r IH]; simpl.
  - intuition.
  - destruct (String.eqb_spec k1 k0); subst; simpl; intuition.
Qed.

Lemma push_definition_sentinel mode d definitions :
  figmaId d = Some "UNDEFINED" ->
  sentinel_only definitions ->
  sentinel_only (push_definition mode d definitions).
Proof.
  intros Hd H m l x HIn Hx. unfold push_definition in HIn.
  destruct (obj_get mode definitions) as [l0|] eqn:G;
    apply In_obj_set in HIn as [[= -> ->]|HIn]; eauto.
  - apply in_app_iff in Hx as [Hx|[<-|[]]]; [|exact Hd].
    apply obj_get_In in G. eauto.
  - destruct Hx as [<-|[]]. exact Hd.
Qed.

Lemma traverse_leaf_sentinel replacements definitionsKey prefix convertPixelToRem
  definitions type_ value_ description_ extensions_ currentType keys :
  getNamespaceData extensions_ = None ->
  traverse_leaf replacements definitionsKey prefix convertPixelToRem definitions
    type_ value_ description_ extensions_ currentType keys
  = push_definition "default"
      (mkDefinition (propertyOf keys) (propertyNameOf keys) (Some "UNDEFINED")
         (or_string description_ "")
         (valueWithReplacements replacements
            (valueToCSS (propertyOf keys) value_ definitionsKey convertPixelToRem ""))
         (or_string type_ currentType))
      definitions.
Proof.
  intros H. unfold traverse_leaf. now rewrite H.
Qed.

Lemma leaves_lack_extensions_children type_ description_ extensions_ children :
  leaves_lack_extensions (Token type_ None description_ extensions_ children) = true ->
  Forall (fun c => leaves_lack_extensions (snd c) = true) children.
Proof.
  simpl. induction children as [|[key value] r IH]; [constructor|].
  intros H. apply andb_true_iff in H as [H1 H2].
  constructor; [exact H1|now apply IH].
Qed.

Lemma traverse_sentinel replacements definitionsKey prefix convertPixelToRem object :
  leaves_lack_extensions object = true ->
  forall definitions currentType keys,
    sentinel_only definitions ->
    sentinel_only (traverse replacements definitionsKey prefix convertPixelToRem
                     object definitions currentType keys).
Proof.
  induction object as [type_ value_ description_ extensions_ children IH]
    using token_induction.
  intros Hfree definitions currentType keys Hd.
  destruct value_ as [value_|].
  - simpl in Hfree |- *.
    destruct (getNamespaceData extensions_) eqn:E; [discriminate|].
    rewrite traverse_leaf_sentinel by exact E.
    now apply push_definition_sentinel.
  - rewrite traverse_group.
    apply leaves_lack_extensions_children in Hfree.
    assert (Hw : Forall (fun w => forall definitions type keys,
                             sentinel_only definitions ->
                             sentinel_only (snd w definitions type keys))
                   (obj_entries (walksOf replacements definitionsKey prefix
                                   convertPixelToRem children))).
    { apply Forall_forall. intros w Hin.
      apply (proj1 (obj_entries_In _ _ _)) in Hin. unfold walksOf in Hin.
      apply in_map_iff in Hin as (c & <- & Hc). simpl.
      rewrite Forall_forall in IH, Hfree. intros. apply IH; auto. }
    revert definitions Hd.
    induction Hw as [|w ws Hw1 Hws IHw]; intros definitions Hd; simpl; [exact Hd|].
    apply IHw. unfold visit_child.
    destruct (charAt0 (fst w) =? "$"); [exact Hd|]. now apply Hw1.
Qed.

Lemma find_app (A : Type) (p : A -> bool) l1 l2 :
  find p (l1 +++ l2)
  = match find p l1 with Some x => Some x | None => find p l2 end.
Proof.
  induction l1 as [|x r IH]; simpl; [reflexivity|].
  now destruct (p x).
Qed.

Lemma obj_get_lookups id items into :
  obj_get id
    (fold_left (fun into item => obj_set (template (figmaId item)) item into)
       items into)
  = match lastWithId id items with
    | Some d => Some d
    | None => obj_get id into
    end.
Proof.
  revert into. induction items as [|x r IH]; intros into; simpl; [reflexivity|].
  rewrite IH. unfold lastWithId. simpl. rewrite find_app. simpl.
  destruct (find _ (rev r)); [reflexivity|].
  rewrite obj_get_set. now destruct (template (figmaId x) =? id).
Qed.


Lemma obj_set_keys (V : Type) (k : string) (v : V) (o : obj V) :
  map fst (obj_set k v o)
  = if existsb (String.eqb k) (map fst o) then map fst o else map fst o +++ [k].
Proof.
  induction o as [|[k1 v1] r IH]; simpl; [reflexivity|].
  rewrite (String.eqb_sym k k1).
  destruct (String.eqb_spec k1 k); subst; simpl; [reflexivity|].
  rewrite IH. now destruct (existsb (String.eqb k) (map fst r)).
Qed.

Lemma obj_set_keyed d table :
  keyed table -> keyed (obj_set (template (figmaId d)) d table).
Proof.
  intros [Hn Hk]. split.
  - rewrite obj_set_keys.
    destruct (existsb _ (map fst table)) eqn:E; [exact Hn|].
    apply NoDup_app; [exact Hn|repeat constructor; simpl; tauto|].
    intros k Hin [<-|[]].
    assert (existsb (String.eqb (template (figmaId d))) (map fst table) = true).
    { apply existsb_exists. exists (template (figmaId d)).
      split; [exact Hin|apply String.eqb_refl]. }
    congruence.
  - intros k x Hin. apply In_obj_set in Hin as [[= -> ->]|Hin]; eauto.
Qed.

Lemma lookupsOf_keyed items : keyed (lookupsOf items).
Proof.
  unfold lookupsOf.
  assert (H : keyed []) by (split; [constructor|intros ? ? []]).
  revert H. generalize (@nil (string * definition)).
  induction items as [|x r IH]; intros into H; simpl; [exact H|].
  apply IH. now apply obj_set_keyed.
Qed.

Lemma In_obj_get (V : Type) (k : string) (v : V) (o : obj V) :
  NoDup (map fst o) -> In (k, v) o -> obj_get k o = Some v.
Proof.
  induction o as [|[k1 v1] r IH]; simpl; [tauto|].
  intros Hn [[= -> ->]|Hin].
  - now rewrite String.eqb_refl.
  - inversion Hn as [|? ? Hnot Hr]; subst.
    destruct (String.eqb_spec k1 k); subst; [|now apply IH].
    destruct Hnot. now apply (in_map fst) in Hin.
Qed.

(** C9.  A leaf without extension data yields one definition, under the mode
    [default], whose [figmaId] is the sentinel [UNDEFINED]; a tree without
    extension data yields such definitions only.  The lookup table is keyed
    by [figmaId], so under the key [UNDEFINED] it holds the last of them in
    the order of writing, no other definition with the sentinel is among its
    values, and a reference to [UNDEFINED] resolves to the property of that
    last one. *)
Theorem sentinel_ids_collide :
  (forall replacements definitionsKey prefix convertPixelToRem definitions
          type_ value_ description_ extensions_ children currentType keys,
      getNamespaceData extensions_ = None ->
      exists d,
        traverse replacements definitionsKey prefix convertPixelToRem
          (Token type_ (Some value_) description_ extensions_ children)
          definitions currentType keys
        = push_definition "default" d definitions
        /\ figmaId d = Some "UNDEFINED")
  /\ (forall replacements definitionsKey prefix convertPixelToRem object
             currentType keys,
        leaves_lack_extensions object = true ->
        sentinel_only (traverse replacements definitionsKey prefix
                         convertPixelToRem object [] currentType keys))
  /\ (forall items,
        obj_get "UNDEFINED" (lookupsOf items) = lastWithId "UNDEFINED" items)
  /\ (forall items x,
        In x (obj_values (lookupsOf items)) ->
        figmaId x = Some "UNDEFINED" ->
        lastWithId "UNDEFINED" items = Some x)
  /\ (forall items d fallback,
        lastWithId "UNDEFINED" items = Some d ->
        valueFromPossibleVariable (lookupsOf items) (BRef (Some "UNDEFINED")) fallback
        = "var(" ++ property d ++ ")").
Proof.
  assert (L : forall items,
             obj_get "UNDEFINED" (lookupsOf items) = lastWithId "UNDEFINED" items).
  { intros items. unfold lookupsOf. rewrite obj_get_lookups.
    now destruct (lastWithId "UNDEFINED" items). }
  repeat split.
  - intros. simpl. rewrite traverse_leaf_sentinel by assumption.
    eexists. split; reflexivity.
  - intros. apply traverse_sentinel; [assumption|]. intros ? ? ? [].
  - exact L.
  - intros items x Hin Hx. rewrite <- L.
    unfold obj_values in Hin. apply in_map_iff in Hin as ([k y] & E & Hin).
    simpl in E. subst y.
    apply (proj1 (obj_entries_In _ _ _)) in Hin.
    destruct (lookupsOf_keyed items) as [Hn Hk].
    pose proof (Hk _ _ Hin) as ->. rewrite Hx in Hin. simpl in Hin.
    now apply In_obj_get.
  - intros items d fallback H. simpl. now rewrite L, H.
Qed.

Lemma sentinel_ids_collide_witness :
  let items :=
    flatDefinitions (processedOf (processTokenJSON "@" sampleTokens)) in
  leaves_lack_extensions primitives = true
  /\ sentinel_only
       (traverse [] "@color_primitives" "wds-color" true primitives [] ""
          ["wds-color"])
  /\ map (fun d => (figmaId d, property d)) items
     = [ (Some "UNDEFINED", "--wds-color-blue-50");
         (Some "UNDEFINED", "--wds-color-blue-500");
         (Some "UNDEFINED", "--wds-color-blue-link");
         (Some "V:1", "--wds-color-bg");
         (Some "V:1", "--wds-color-bg");
         (Some "V:2", "--wds-spacing-scale-gap");
         (Some "V:2", "--wds-spacing-scale-gap") ]
  /\ valueFromPossibleVariable (lookupsOf items) (BRef (Some "UNDEFINED")) "0px"
     = "var(--wds-color-blue-link)".
Proof.
  intros items.
  destruct sentinel_ids_collide as (_ & T & _ & _ & R).
  split; [reflexivity|].
  split; [apply T; reflexivity|].
  split; [reflexivity|].
  erewrite R; [|vm_compute; reflexivity]. reflexivity.
Defined.

(* ------------------------------------------------------------------------- *)
(** ** The driver *)

Lemma prefix_append p s : String.prefix p (p ++ s) = true.
Proof.
  induction p as [|c p IH]; simpl.
  - now destruct s.
  - destruct (ascii_dec c c); [exact IH|congruence].
Qed.

Lemma drop_append p s : drop (String.length p) (p ++ s) = s.
Proof.
  induction p as [|c p IH]; simpl; [now destruct s|exact IH].
Qed.


Section DriverFacts.
Variable KEY_PREFIX_COLLECTION : string.
Variable collections : obj collection.
Variable data : obj token.

Local Abbreviation ensureStep := (ensureOne KEY_PREFIX_COLLECTION).
Local Abbreviation processStep := (processOne KEY_PREFIX_COLLECTION data).


Lemma ensureOne_log st definitionsKey w :
  In w (snd st) -> In w (snd (ensureStep st definitionsKey)).
Proof.
  intros H. unfold ensureOne.
  destruct (negb _); [exact H|].
  destruct (_ =? ""); [exact H|].
  destruct (obj_get _ (fst st)); [exact H|].
  simpl. apply in_or_app. now left.
Qed.














End DriverFacts.










(* ------------------------------------------------------------------------- *)
(** ** Aliases *)

Lemma append_assoc (a b c : string) : (a ++ b) ++ c = a ++ b ++ c.
Proof. induction a as [|x a IH]; simpl; [reflexivity|now rewrite IH]. Qed.

Lemma append_empty (a : string) : a ++ "" = a.
Proof. induction a as [|x a IH]; simpl; [reflexivity|now rewrite IH]. Qed.

Lemma replace_each_append p rep a b :
  replace_each p rep (a ++ b) = replace_each p rep a ++ replace_each p rep b.
Proof.
  induction a as [|x a IH]; simpl; [reflexivity|].
  destruct (p x); rewrite IH; [now rewrite append_assoc|reflexivity].
Qed.

Lemma replace_each_plain p rep s :
  all_chars (fun c => negb (p c)) s = true -> replace_each p rep s = s.
Proof.
  induction s as [|x s IH]; simpl; [reflexivity|].
  intros H. apply andb_true_iff in H as [Hx Hs].
  apply negb_true_iff in Hx. rewrite Hx. now rewrite IH.
Qed.

Lemma getSubstitution_plain matched before after rep :
  all_chars (fun c => negb (is_char "$" c)) rep = true ->
  getSubstitution matched before after rep = rep.
Proof.
  induction rep as [|x rep IH]; simpl; [reflexivity|].
  intros H. apply andb_true_iff in H as [Hx Hs].
  destruct (Ascii.eqb_spec x "$") as [->|Hne]; [discriminate|].
  rewrite (IH Hs).
  destruct x as [[] [] [] [] [] [] [] []]; try reflexivity.
  now destruct Hne.
Qed.

Lemma rev_string_append a b : rev_string (a ++ b) = rev_string b ++ rev_string a.
Proof.
  induction a as [|x a IH]; simpl; [now rewrite append_empty|].
  now rewrite IH, append_assoc.
Qed.

Lemma rev_string_involutive s : rev_string (rev_string s) = s.
Proof.
  induction s as [|x s IH]; simpl; [reflexivity|].
  rewrite rev_string_append. simpl. now rewrite IH.
Qed.

Lemma strip_close_append s : strip_close (s ++ "}") = s.
Proof.
  unfold strip_close. rewrite rev_string_append. simpl.
  apply rev_string_involutive.
Qed.


Lemma join_cons sep x path : join sep (x :: path) = x ++ tail_with sep path.
Proof. destruct path; simpl; [now rewrite append_empty|reflexivity]. Qed.

Lemma replace_each_join x path :
  forallb no_separator (x :: path) = true ->
  replace_each is_separator "-" (join "." (x :: path)) = join "-" (x :: path).
Proof.
  revert x. induction path as [|y r IH]; intros x H.
  - simpl in *. apply andb_true_iff in H as [H _].
    now apply replace_each_plain.
  - change (join "." (x :: y :: r)) with (x ++ String "." (join "." (y :: r))).
    change (join "-" (x :: y :: r)) with (x ++ String "-" (join "-" (y :: r))).
    simpl in H. apply andb_true_iff in H as [Hx H].
    rewrite replace_each_append, (replace_each_plain _ _ _ Hx).
    f_equal.
    change (replace_each is_separator "-" (String "." (join "." (y :: r))))
      with (String "-" (replace_each is_separator "-" (join "." (y :: r)))).
    f_equal. now apply IH.
Qed.

Lemma replace_each_tail path :
  forallb no_separator path = true ->
  replace_each is_separator "-" (tail_with "." path) = tail_with "-" path.
Proof.
  destruct path as [|x r]; [reflexivity|]. intros H.
  unfold tail_with.
  change (replace_each is_separator "-" ("." ++ join "." (x :: r)))
    with (String "-" (replace_each is_separator "-" (join "." (x :: r)))).
  now rewrite replace_each_join.
Qed.

Lemma split_first_unfold pat s :
  split_first pat s
  = if String.prefix pat s then Some ("", drop (String.length pat) s)
    else match s with
         | "" => None
         | String c r =>
             match split_first pat r with
             | Some (b, a) => Some (String c b, a)
             | None => None
             end
         end.
Proof. destruct s; reflexivity. Qed.

Lemma split_first_alias c dk rest :
  c <> "{"%char ->
  split_first (String c dk) (String "{" (String c dk ++ rest)) = Some ("{", rest).
Proof.
  intros Hc.
  rewrite split_first_unfold.
  assert (E : String.prefix (String c dk) (String "{" (String c dk ++ rest)) = false).
  { simpl. now destruct (ascii_dec c "{"). }
  rewrite E.
  rewrite split_first_unfold, prefix_append, drop_append. reflexivity.
Qed.


(** The rewrite with the collection's prefix, which [traverse] uses for a
    leaf with modes, gives the property of the referenced token: the
    collection key does not open with a brace, the prefix holds no dollar
    and neither it nor a name on the path holds a separator. *)
Lemma alias_of_same_collection (c : ascii) (key prefix : string)
  (path : list string) :
  c <> "{"%char ->
  all_chars (fun c => negb (is_char "$" c)) prefix = true ->
  no_separator prefix = true ->
  forallb no_separator path = true ->
  aliasToCSS (aliasOf (String c key) path) (String c key) prefix
  = "var(" ++ propertyOf (prefix :: path) ++ ")".
Proof.
  intros Hc Hdollar Hprefix Hpath.
  unfold aliasToCSS, aliasOf, replace, propertyOf.
  rewrite !join_cons.
  change ("{" ++ (String c key ++ tail_with "." path) ++ "}")
    with (String "{" ((String c key ++ tail_with "." path) ++ "}")).
  rewrite append_assoc, split_first_alias by exact Hc.
  rewrite getSubstitution_plain by exact Hdollar.
  change (replace_each (fun c0 => is_char "." c0 || is_char " " c0) "-"
            ("{" ++ prefix ++ tail_with "." path ++ "}"))
    with (String "{" (replace_each is_separator "-"
                        (prefix ++ tail_with "." path ++ "}"))).
  rewrite !replace_each_append.
  rewrite (replace_each_plain _ _ _ Hprefix), (replace_each_tail _ Hpath).
  change (replace_each is_separator "-" "}") with "}".
  change (strip_open (String "{" (prefix ++ tail_with "-" path ++ "}")))
    with (prefix ++ tail_with "-" path ++ "}").
  rewrite <- (append_assoc prefix (tail_with "-" path) "}"), strip_close_append.
  reflexivity.
Qed.

Lemma alias_of_same_collection_example :
  aliasToCSS (aliasOf "@color_primitives" ["blue"; "500"]) "@color_primitives"
    "wds-color"
  = "var(--wds-color-blue-500)".
Proof.
  rewrite (alias_of_same_collection "@" "color_primitives" "wds-color"
             ["blue"; "500"]); [reflexivity|discriminate|reflexivity..].
Defined.

(** C1.  An alias to a token of the same collection is to become
    [var(--X)] with [X] the property name of that token, for a leaf with
    modes and for a leaf under the mode [default] alike.  For the leaf with
    modes [traverse] hands the collection's prefix to [valueToCSS]; for the
    leaf under [default] it hands the empty text, so the collection key is
    cut out and nothing takes its place.  In the sample primitives the token
    [blue.500] is drawn as [--wds-color-blue-500] and its alias as
    [var(---blue-500)]. *)
Theorem alias_in_default_mode_loses_the_prefix :
  let referenced := propertyOf ["wds-color"; "blue"; "500"] in
  let drawn :=
    traverse [] "@color_primitives" "wds-color" true primitives [] ""
      ["wds-color"] in
  referenced = "--wds-color-blue-500"
  /\ option_map (map (fun d => (property d, value d))) (obj_get "default" drawn)
     = Some [ ("--wds-color-blue-50", JStr "#eeeeff");
              ("--wds-color-blue-500", JStr "#0000ff");
              ("--wds-color-blue-link", JStr "var(---blue-500)") ]
  /\ valueToCSS "--wds-color-blue-link" (JStr "{@color_primitives.blue.500}")
       "@color_primitives" true ""
     = JStr "var(---blue-500)"
  /\ valueToCSS "--wds-color-blue-link" (JStr "{@color_primitives.blue.500}")
       "@color_primitives" true "wds-color"
     = JStr ("var(" ++ referenced ++ ")").
Proof. repeat split; vm_compute; reflexivity. Qed.

(* ========================================================================= *)
(** * Further properties of the code *)

(** ** The sort of the emitter *)

Lemma property_gtb_asym a b : property_gtb a b = true -> property_gtb b a = false.
Proof.
  unfold property_gtb, String.ltb. intros H.
  rewrite String.compare_antisym.
  destruct (String.compare (property b) (property a)); try discriminate.
  reflexivity.
Qed.

Lemma sort_insert_permutation a l : Permutation (a :: l) (sort_insert a l).
Proof.
  induction l as [|b r IH]; simpl; [apply Permutation_refl|].
  destruct (property_gtb a b); [|apply Permutation_refl].
  eapply Permutation_trans; [apply perm_swap|]. now apply perm_skip.
Qed.

Lemma sort_insert_sorted a l :
  Sorted (fun x y => property_gtb x y = false) l ->
  Sorted (fun x y => property_gtb x y = false) (sort_insert a l).
Proof.
  induction 1 as [|b r Hr IH Hb]; simpl; [repeat constructor|].
  destruct (property_gtb a b) eqn:E.
  - constructor; [exact IH|].
    destruct r as [|c r']; simpl.
    + constructor. now apply property_gtb_asym.
    + inversion Hb as [|? ? Hbc]; subst.
      destruct (property_gtb a c); constructor;
        [exact Hbc|now apply property_gtb_asym].
  - constructor; [now constructor|]. now constructor.
Qed.

(** X1.  The sort of [drawCSSPropLines] returns the definitions it was
    given, each as often as given, in ascending order of [property]: no
    definition is followed by one with a smaller property. *)
Theorem sort_by_property_sorts (lines : list definition) :
  Permutation lines (sort_by_property lines)
  /\ Sorted (fun a b => property_gtb a b = false) (sort_by_property lines).
Proof.
  unfold sort_by_property. split.
  - induction lines as [|a r IH]; simpl; [constructor|].
    eapply Permutation_trans; [|apply sort_insert_permutation].
    now apply perm_skip.
  - induction lines as [|a r IH]; simpl; [constructor|].
    now apply sort_insert_sorted.
Qed.

(* ------------------------------------------------------------------------- *)
(** ** The walk as a sequence of leaf calls *)

Lemma insert_index_map (V W : Type) (g : V -> W) n k v l :
  insert_index n (k, g v) (map (fun t => (fst t, (fst (snd t), g (snd (snd t))))) l)
  = map (fun t => (fst t, (fst (snd t), g (snd (snd t))))) (insert_index n (k, v) l).
Proof.
  induction l as [|[n' [k' v']] r IH]; simpl; [reflexivity|].
  destruct (n <=? n')%N; simpl; [reflexivity|]. now rewrite IH.
Qed.

Lemma index_entries_map (V W : Type) (g : V -> W) (o : obj V) :
  index_entries (map (fun e => (fst e, g (snd e))) o)
  = map (fun t => (fst t, (fst (snd t), g (snd (snd t))))) (index_entries o).
Proof.
  induction o as [|[k v] r IH]; simpl; [reflexivity|].
  destruct (array_index k); [|exact IH].
  now rewrite IH, insert_index_map.
Qed.

(** Enumeration and a change of the values commute. *)
Lemma obj_entries_map (V W : Type) (g : V -> W) (o : obj V) :
  obj_entries (map (fun e => (fst e, g (snd e))) o)
  = map (fun e => (fst e, g (snd e))) (obj_entries o).
Proof.
  unfold obj_entries, named_entries.
  rewrite index_entries_map, map_app, !map_map. f_equal.
  induction o as [|[k v] r IH]; simpl; [reflexivity|].
  destruct (array_index k); simpl; [exact IH|now rewrite IH].
Qed.

Lemma leafCalls_group type_ description_ extensions_ children currentType keys :
  leafCalls (Token type_ None description_ extensions_ children) currentType keys
  = flat_map (fun c => if charAt0 (fst c) =? "$" then []
                       else snd c (or_string type_ currentType) (keys +++ [fst c]))
      (obj_entries (callsOf children)).
Proof.
  simpl. do 2 f_equal. unfold callsOf.
  induction children as [|[key value] r IH]; simpl; [reflexivity|].
  now rewrite IH.
Qed.

(** [traverse] runs the leaf branch on the leaf calls of the walk, one after
    the other. *)
Lemma traverse_by_leaf_calls replacements definitionsKey prefix convertPixelToRem
  object :
  forall definitions currentType keys,
    traverse replacements definitionsKey prefix convertPixelToRem object
      definitions currentType keys
    = fold_left (runLeaf replacements definitionsKey prefix convertPixelToRem)
        (leafCalls object currentType keys) definitions.
Proof.
  induction object as [type_ value_ description_ extensions_ children IH]
    using token_induction.
  intros definitions currentType keys.
  destruct value_ as [value_|]; [reflexivity|].
  rewrite traverse_group, leafCalls_group.
  unfold walksOf, callsOf. rewrite !obj_entries_map.
  assert (H : Forall (fun c => forall definitions currentType keys,
                          traverse replacements definitionsKey prefix
                            convertPixelToRem (snd c) definitions currentType keys
                          = fold_left
                              (runLeaf replacements definitionsKey prefix
                                 convertPixelToRem)
                              (leafCalls (snd c) currentType keys) definitions)
                (obj_entries children)).
  { apply Forall_forall. intros c Hc.
    apply (proj1 (obj_entries_In _ _ _)) in Hc.
    rewrite Forall_forall in IH. now apply IH. }
  revert definitions.
  induction H as [|c cs Hc Hcs IHcs]; intros definitions; simpl; [reflexivity|].
  rewrite fold_left_app, <- IHcs. f_equal.
  unfold visit_child. simpl.
  destruct (charAt0 (fst c) =? "$"); [reflexivity|]. apply Hc.
Qed.

(** The keys of a leaf call are the keys of the walk followed by a path to a
    leaf. *)
Lemma leafCalls_paths object :
  forall currentType keys c,
    In c (leafCalls object currentType keys) ->
    exists path, leaf_at object path /\ call_keys c = keys +++ path.
Proof.
  induction object as [type_ value_ description_ extensions_ children IH]
    using token_induction.
  intros currentType keys c Hc.
  destruct value_ as [value_|].
  - destruct Hc as [<-|[]]. exists []. split; [constructor|].
    simpl. now rewrite app_nil_r.
  - rewrite leafCalls_group in Hc. apply in_flat_map in Hc as ([k calls] & Hin & Hc).
    apply (proj1 (obj_entries_In _ _ _)) in Hin.
    unfold callsOf in Hin. apply in_map_iff in Hin as ([k' child] & E & Hin).
    simpl in E. injection E as -> <-. simpl in Hc.
    destruct (charAt0 k =? "$") eqn:Ek; [destruct Hc|].
    rewrite Forall_forall in IH.
    destruct (IH _ Hin _ _ _ Hc) as (path & Hp & Hk).
    exists (k :: path). split.
    + econstructor; eassumption.
    + rewrite Hk, <- app_assoc. reflexivity.
Qed.

Lemma fold_left_mapped (A B C : Type) (f : A -> C -> A) (g : B -> C) l a :
  fold_left f (map g l) a = fold_left (fun a x => f a (g x)) l a.
Proof. revert a. induction l as [|x r IH]; intros a; simpl; [reflexivity|apply IH]. Qed.

Lemma fold_left_flat_map (A B C : Type) (f : A -> C -> A) (g : B -> list C) l a :
  fold_left f (flat_map g l) a = fold_left (fun a x => fold_left f (g x) a) l a.
Proof.
  revert a. induction l as [|x r IH]; intros a; simpl; [reflexivity|].
  now rewrite fold_left_app, IH.
Qed.

Lemma runLeaf_pushes replacements definitionsKey prefix convertPixelToRem
  definitions c :
  runLeaf replacements definitionsKey prefix convertPixelToRem definitions c
  = fold_left pushPair
      (leafDefinitions replacements definitionsKey prefix convertPixelToRem c)
      definitions.
Proof.
  unfold runLeaf, traverse_leaf, leafDefinitions.
  destruct (getNamespaceData (call_extensions c)) as [[figmaId [modes|]]|];
    [|reflexivity|reflexivity].
  now rewrite fold_left_mapped.
Qed.

(** The pairs of mode and definition of a whole walk. *)
Lemma traverse_pushes replacements definitionsKey prefix convertPixelToRem object
  definitions currentType keys :
  traverse replacements definitionsKey prefix convertPixelToRem object
    definitions currentType keys
  = fold_left pushPair
      (flat_map (leafDefinitions replacements definitionsKey prefix
                   convertPixelToRem)
         (leafCalls object currentType keys))
      definitions.
Proof.
  rewrite traverse_by_leaf_calls, fold_left_flat_map.
  revert definitions.
  induction (leafCalls object currentType keys) as [|c r IH];
    intros definitions; simpl; [reflexivity|].
  now rewrite runLeaf_pushes, IH.
Qed.

Lemma push_definition_get mode d definitions m :
  obj_get m (push_definition mode d definitions)
  = if mode =? m then Some (listOf (obj_get m definitions) +++ [d])
    else obj_get m definitions.
Proof.
  unfold push_definition.
  destruct (obj_get mode definitions) as [l|] eqn:G; rewrite obj_get_set;
    destruct (String.eqb_spec mode m) as [->|_]; try reflexivity;
    now rewrite G.
Qed.

(** What a series of pushes leaves under a mode: what was there, then what
    was pushed for that mode, in the order of pushing. *)
Lemma pushes_get pairs definitions m :
  obj_get m (fold_left pushPair pairs definitions)
  = match ofMode m pairs with
    | [] => obj_get m definitions
    | added => Some (listOf (obj_get m definitions) +++ added)
    end.
Proof.
  revert definitions. unfold ofMode.
  induction pairs as [|[mode d] r IH]; intros definitions; simpl; [reflexivity|].
  rewrite IH.
  change (pushPair definitions (mode, d)) with (push_definition mode d definitions).
  rewrite push_definition_get.
  destruct (String.eqb_spec mode m) as [->|_]; simpl.
  - destruct (map snd (filter _ r)); simpl; [reflexivity|].
    now rewrite <- app_assoc.
  - reflexivity.
Qed.

Lemma is_upper_lower_char c : is_upper (lower_char c) = false.
Proof. destruct c as [[] [] [] [] [] [] [] []]; reflexivity. Qed.

Lemma toLowerCase_lowercase s : lowercase (toLowerCase s) = true.
Proof.
  unfold lowercase, toLowerCase.
  induction s as [|c r IH]; simpl; [reflexivity|].
  now rewrite is_upper_lower_char, IH.
Qed.

(** What every definition of a leaf call carries. *)
Lemma leafDefinitions_facts replacements definitionsKey prefix convertPixelToRem
  c mode d :
  In (mode, d)
    (leafDefinitions replacements definitionsKey prefix convertPixelToRem c) ->
  property d = propertyOf (call_keys c)
  /\ propertyName d = propertyNameOf (call_keys c)
  /\ type d = or_string (call_type c) (call_currentType c)
  /\ lowercase_value d.
Proof.
  assert (L : forall v, lowercase_value
                          (mkDefinition (propertyOf (call_keys c))
                             (propertyNameOf (call_keys c)) None ""
                             (valueWithReplacements replacements v) "")).
  { intros v. unfold lowercase_value. simpl.
    destruct v; simpl; [apply toLowerCase_lowercase|exact I]. }
  unfold leafDefinitions.
  destruct (getNamespaceData (call_extensions c)) as [[figmaId [modes|]]|].
  - intros H. apply in_map_iff in H as (m & E & _). injection E as _ <-.
    repeat split. exact (L _).
  - intros [E|[]]. injection E as _ <-. repeat split. exact (L _).
  - intros [E|[]]. injection E as _ <-. repeat split. exact (L _).
Qed.

Lemma ofMode_In mode pairs d : In d (ofMode mode pairs) -> In (mode, d) pairs.
Proof.
  unfold ofMode. intros H. apply in_map_iff in H as ([m d'] & E & H).
  simpl in E. subst d'. apply filter_In in H as [H Em]. simpl in Em.
  apply String.eqb_eq in Em. now subst.
Qed.

(** A definition that a walk from the empty object left under a mode comes
    from a leaf call of the walk. *)
Lemma traverse_origin replacements definitionsKey prefix convertPixelToRem object
  currentType keys mode l d :
  obj_get mode
    (traverse replacements definitionsKey prefix convertPixelToRem object []
       currentType keys) = Some l ->
  In d l ->
  exists c,
    In c (leafCalls object currentType keys)
    /\ In (mode, d)
         (leafDefinitions replacements definitionsKey prefix convertPixelToRem c).
Proof.
  rewrite traverse_pushes, pushes_get. simpl. intros H Hd.
  assert (Hin : In d (ofMode mode
                        (flat_map (leafDefinitions replacements definitionsKey
                                     prefix convertPixelToRem)
                           (leafCalls object currentType keys)))).
  { destruct (ofMode mode _); [discriminate|]. now injection H as <-. }
  apply ofMode_In in Hin. apply in_flat_map in Hin as (c & Hc & Hin). eauto.
Qed.

(* ------------------------------------------------------------------------- *)
(** ** The tree traverser *)

(** X2.  Every definition of a processed collection is named after the path
    of a leaf of the collection's tree: its [property] is [--], the full
    prefix [wds-<prefix>] and the names on the path, joined by hyphens, and
    its [propertyName] is the camel case of the same keys. *)
Theorem properties_follow_leaf_paths (tree : token) (c : collection)
  (definitionsKey mode : string) (l : list definition) (d : definition) :
  obj_get mode (definitionsOf (processCollection tree c definitionsKey)) = Some l ->
  In d l ->
  exists path,
    leaf_at tree path
    /\ property d
       = "--" ++ join "-" ((TOKEN_PREFIX ++ prefix (settings c)) :: path)
    /\ propertyName d
       = propertyNameOf ((TOKEN_PREFIX ++ prefix (settings c)) :: path).
Proof.
  unfold processCollection, definitionsOf. simpl definitions.
  change (if TOKEN_PREFIX ++ prefix (settings c) =? ""
          then []
          else [TOKEN_PREFIX ++ prefix (settings c)])
    with [TOKEN_PREFIX ++ prefix (settings c)].
  intros H Hd.
  destruct (traverse_origin _ _ _ _ _ _ _ _ _ _ H Hd) as (call & Hc & Hin).
  destruct (leafDefinitions_facts _ _ _ _ _ _ _ Hin) as (E1 & E2 & _).
  destruct (leafCalls_paths _ _ _ _ Hc) as (path & Hp & Hk).
  exists path. rewrite E1, E2, Hk. repeat split. exact Hp.
Qed.

Lemma properties_follow_leaf_paths_witness :
  let c := mkCollection (onlyPrefix "color") None in
  let d := mkDefinition "--wds-color-blue-500" "wdsColorBlue500"
             (Some "UNDEFINED") "" (JStr "#0000ff") "" in
  obj_get "default"
    (definitionsOf (processCollection primitives c "@color_primitives"))
  = Some [ mkDefinition "--wds-color-blue-50" "wdsColorBlue50"
             (Some "UNDEFINED") "" (JStr "#eeeeff") "";
           d;
           mkDefinition "--wds-color-blue-link" "wdsColorBlueLink"
             (Some "UNDEFINED") "" (JStr "var(---blue-500)") "" ]
  /\ exists path,
       leaf_at primitives path
       /\ property d = "--" ++ join "-" ("wds-color" :: path)
       /\ propertyName d = propertyNameOf ("wds-color" :: path).
Proof.
  intros c d. split; [reflexivity|].
  apply (properties_follow_leaf_paths primitives c "@color_primitives" "default"
           _ d eq_refl).
  right. now left.
Defined.

(** X3.  Every string value that a walk stores is in lower case: the value
    of each definition passes [valueWithReplacements], which ends with
    [toLowerCase].  A hex colour, a font family or a keyword written with
    capitals reaches the stylesheet without them. *)
Theorem stored_values_are_lowercase replacements definitionsKey prefix_
  convertPixelToRem_ (object : token) (currentType : string) (keys : list string)
  (mode : string) (l : list definition) (d : definition) (s : string) :
  obj_get mode
    (traverse replacements definitionsKey prefix_ convertPixelToRem_ object []
       currentType keys) = Some l ->
  In d l ->
  value d = JStr s ->
  lowercase s = true.
Proof.
  intros H Hd Hs.
  destruct (traverse_origin _ _ _ _ _ _ _ _ _ _ H Hd) as (call & _ & Hin).
  destruct (leafDefinitions_facts _ _ _ _ _ _ _ Hin) as (_ & _ & _ & L).
  unfold lowercase_value in L. now rewrite Hs in L.
Qed.

Lemma stored_values_are_lowercase_witness :
  let object := group [("family-sans", leaf "Inter"); ("accent", leaf "#FFAA00")] in
  let drawn := traverse [] "@brand" "wds-brand" true object [] "" ["wds-brand"] in
  option_map (map value) (obj_get "default" drawn)
  = Some [JStr (dquote ++ "inter" ++ dquote ++ ", sans-serif"); JStr "#ffaa00"]
  /\ lowercase "#ffaa00" = true.
Proof.
  intros object drawn. split; [reflexivity|].
  apply (stored_values_are_lowercase [] "@brand" "wds-brand" true object ""
           ["wds-brand"] "default"
           [ mkDefinition "--wds-brand-family-sans" "wdsBrandFamilySans"
               (Some "UNDEFINED") ""
               (JStr (dquote ++ "inter" ++ dquote ++ ", sans-serif")) "";
             mkDefinition "--wds-brand-accent" "wdsBrandAccent"
               (Some "UNDEFINED") "" (JStr "#ffaa00") "" ]
           (mkDefinition "--wds-brand-accent" "wdsBrandAccent"
              (Some "UNDEFINED") "" (JStr "#ffaa00") "")
           "#ffaa00" eq_refl).
  - right. now left.
  - reflexivity.
Defined.

(** X4.  A walk only appends: whatever list the definitions object holds
    under a mode before the walk is still there afterwards, as the front of
    the list of that mode. *)
Theorem traverse_only_appends replacements definitionsKey prefix_
  convertPixelToRem_ (object : token) (definitions : obj (list definition))
  (currentType : string) (keys : list string) (mode : string)
  (l : list definition) :
  obj_get mode definitions = Some l ->
  exists added,
    obj_get mode
      (traverse replacements definitionsKey prefix_ convertPixelToRem_ object
         definitions currentType keys)
    = Some (l +++ added).
Proof.
  intros H. rewrite traverse_pushes, pushes_get, H. simpl.
  destruct (ofMode mode _) as [|a r]; [|eauto].
  exists []. now rewrite app_nil_r.
Qed.

Lemma traverse_only_appends_witness :
  let before :=
    mkDefinition "--wds-color-white" "wdsColorWhite" (Some "V:0") ""
      (JStr "#ffffff") "color" in
  exists added,
    obj_get "default"
      (traverse [] "@color_primitives" "wds-color" true primitives
         [("default", [before])] "" ["wds-color"])
    = Some ([before] +++ added)
    /\ List.length added = 3.
Proof.
  intros before.
  destruct (traverse_only_appends [] "@color_primitives" "wds-color" true
              primitives [("default", [before])] "" ["wds-color"] "default"
              [before] eq_refl) as [added E].
  exists added. split; [exact E|].
  vm_compute in E. injection E as <-. reflexivity.
Defined.

Lemma insert_index_permutation (V : Type) n (e : string * V) l :
  Permutation (e :: map snd l) (map snd (insert_index n e l)).
Proof.
  induction l as [|[n' e'] r IH]; simpl; [apply Permutation_refl|].
  destruct (n <=? n')%N; simpl; [apply Permutation_refl|].
  eapply Permutation_trans; [apply perm_swap|]. now apply perm_skip.
Qed.

(** Enumeration visits every own property once. *)
Lemma obj_entries_permutation (V : Type) (o : obj V) :
  Permutation o (obj_entries o).
Proof.
  unfold obj_entries, named_entries.
  induction o as [|[k v] r IH]; simpl; [constructor|].
  destruct (array_index k); simpl.
  - eapply Permutation_trans; [apply perm_skip, IH|].
    change ((k, v) :: map snd (index_entries r) +++ filter _ r)
      with (((k, v) :: map snd (index_entries r)) +++
            filter (fun e => match array_index (fst e) with
                             | Some _ => false
                             | None => true
                             end) r).
    apply Permutation_app_tail, insert_index_permutation.
  - eapply Permutation_trans; [apply perm_skip, IH|].
    apply Permutation_middle.
Qed.

Lemma obj_entries_NoDup (V : Type) (o : obj V) :
  NoDup (map fst o) -> NoDup (map fst (obj_entries o)).
Proof.
  apply Permutation_NoDup, Permutation_map, obj_entries_permutation.
Qed.





Lemma or_string_untyped type_ currentType :
  untyped type_ = true -> or_string type_ currentType = currentType.
Proof.
  destruct type_ as [t|]; simpl; [|reflexivity]. now intros ->.
Qed.

Lemma declares_no_type_children type_ value_ description_ extensions_ children :
  declares_no_type (Token type_ value_ description_ extensions_ children) = true ->
  untyped type_ = true
  /\ Forall (fun c => declares_no_type (snd c) = true) children.
Proof.
  simpl. intros H. apply andb_true_iff in H as [H1 H2]. split; [exact H1|].
  induction children as [|[key value] r IH]; [constructor|].
  apply andb_true_iff in H2 as [H2 H3]. constructor; [exact H2|now apply IH].
Qed.

Lemma untyped_calls object :
  declares_no_type object = true ->
  forall currentType keys c,
    In c (leafCalls object currentType keys) ->
    or_string (call_type c) (call_currentType c) = currentType.
Proof.
  induction object as [type_ value_ description_ extensions_ children IH]
    using token_induction.
  intros Hno currentType keys c Hc.
  apply declares_no_type_children in Hno as [Hty Hch].
  destruct value_ as [value_|].
  - destruct Hc as [<-|[]]. simpl. now apply or_string_untyped.
  - rewrite leafCalls_group in Hc.
    apply in_flat_map in Hc as ([k calls] & Hin & Hc).
    apply (proj1 (obj_entries_In _ _ _)) in Hin.
    unfold callsOf in Hin. apply in_map_iff in Hin as ([k' child] & E & Hin).
    simpl in E. injection E as -> <-. simpl in Hc.
    destruct (charAt0 k =? "$"); [destruct Hc|].
    rewrite Forall_forall in IH, Hch.
    rewrite (IH _ Hin (Hch _ Hin) _ _ _ Hc).
    now apply or_string_untyped.
Qed.

(** X6.  A type is inherited: when no node below a container declares a
    [$type] of its own, every definition of the walk of the container carries
    the container's [$type], or the type that the walk came with when the
    container declares none. *)
Theorem type_is_inherited replacements definitionsKey prefix_ convertPixelToRem_
  type_ description_ extensions_ children currentType keys mode l d :
  Forall (fun c => declares_no_type (snd c) = true) children ->
  obj_get mode
    (traverse replacements definitionsKey prefix_ convertPixelToRem_
       (Token type_ None description_ extensions_ children) []
       currentType keys) = Some l ->
  In d l ->
  type d = or_string type_ currentType.
Proof.
  intros Hch H Hd.
  destruct (traverse_origin _ _ _ _ _ _ _ _ _ _ H Hd) as (call & Hc & Hin).
  destruct (leafDefinitions_facts _ _ _ _ _ _ _ Hin) as (_ & _ & -> & _).
  rewrite leafCalls_group in Hc.
  apply in_flat_map in Hc as ([k calls] & Hk & Hc).
  apply (proj1 (obj_entries_In _ _ _)) in Hk.
  unfold callsOf in Hk. apply in_map_iff in Hk as ([k' child] & E & Hk).
  simpl in E. injection E as -> <-. simpl in Hc.
  destruct (charAt0 k =? "$"); [destruct Hc|].
  rewrite Forall_forall in Hch.
  exact (untyped_calls child (Hch _ Hk) _ _ _ Hc).
Qed.

Lemma type_is_inherited_witness :
  let children := [("blue", group [("500", leaf "#0000ff")]); ("red", leaf "#ff0000")] in
  let drawn :=
    traverse [] "@color" "wds-color" true
      (Token (Some "color") None None None children) [] "" ["wds-color"] in
  option_map (map (fun d => (property d, type d))) (obj_get "default" drawn)
  = Some [("--wds-color-blue-500", "color"); ("--wds-color-red", "color")]
  /\ forall d, In d (listOf (obj_get "default" drawn)) -> type d = "color".
Proof.
  intros children drawn. split; [reflexivity|].
  intros d Hd.
  assert (Hch : Forall (fun c => declares_no_type (snd c) = true) children).
  { repeat constructor. }
  exact (type_is_inherited [] "@color" "wds-color" true (Some "color") None None
           children "" ["wds-color"] "default" _ d Hch eq_refl Hd).
Defined.

(* ------------------------------------------------------------------------- *)
(** ** Names *)

Lemma all_chars_append q a b :
  all_chars q (a ++ b) = all_chars q a && all_chars q b.
Proof.
  induction a as [|c a IH]; simpl; [reflexivity|].
  now rewrite IH, andb_assoc.
Qed.

Lemma all_chars_map_chars (q0 q : ascii -> bool) f s :
  (forall c, q0 c = true -> q (f c) = true) ->
  all_chars q0 s = true -> all_chars q (map_chars f s) = true.
Proof.
  intros Hf. induction s as [|c r IH]; simpl; [reflexivity|].
  intros H. apply andb_true_iff in H as [Hc Hr].
  now rewrite (Hf c Hc), (IH Hr).
Qed.

Lemma all_chars_replace_each (q0 q p : ascii -> bool) rep s :
  all_chars q rep = true ->
  (forall c, q0 c = true -> p c = false -> q c = true) ->
  all_chars q0 s = true -> all_chars q (replace_each p rep s) = true.
Proof.
  intros Hrep Hq. induction s as [|c r IH]; simpl; [reflexivity|].
  intros H. apply andb_true_iff in H as [Hc Hr].
  destruct (p c) eqn:E.
  - now rewrite all_chars_append, Hrep, (IH Hr).
  - simpl. now rewrite (Hq c Hc E), (IH Hr).
Qed.

Lemma all_chars_replace_runs (q0 q p : ascii -> bool) rep s :
  all_chars q rep = true ->
  (forall c, q0 c = true -> p c = false -> q c = true) ->
  all_chars q0 s = true -> all_chars q (replace_runs p rep s) = true.
Proof.
  intros Hrep Hq. induction s as [|c r IH]; [reflexivity|].
  intros H. simpl in H. apply andb_true_iff in H as [Hc Hr].
  specialize (IH Hr). simpl.
  destruct (p c) eqn:E.
  - destruct r as [|c' r']; [exact Hrep|].
    destruct (p c'); [exact IH|].
    now rewrite all_chars_append, Hrep, IH.
  - simpl. now rewrite (Hq c Hc E), IH.
Qed.

Lemma all_chars_drop_while q p s :
  all_chars q s = true -> all_chars q (drop_while p s) = true.
Proof.
  induction s as [|c r IH]; simpl; [reflexivity|].
  intros H. destruct (p c); [|exact H].
  apply andb_true_iff in H as [_ Hr]. now apply IH.
Qed.

Lemma all_chars_rev_string q s :
  all_chars q (rev_string s) = all_chars q s.
Proof.
  induction s as [|c r IH]; simpl; [reflexivity|].
  rewrite all_chars_append, IH. simpl. rewrite andb_true_r. apply andb_comm.
Qed.

Lemma all_chars_trim q s : all_chars q s = true -> all_chars q (trim s) = true.
Proof.
  intros H. unfold trim, trimEnd, trimStart.
  rewrite all_chars_rev_string. apply all_chars_drop_while.
  rewrite all_chars_rev_string. now apply all_chars_drop_while.
Qed.

Lemma all_chars_any (q : ascii -> bool) s :
  (forall c, q c = true) -> all_chars q s = true.
Proof.
  intros H. induction s as [|c r IH]; simpl; [reflexivity|]. now rewrite H, IH.
Qed.

Lemma name_char_of_lowered c :
  (is_alnum c || is_char "-" c) = true -> is_name_char (lower_char c) = true.
Proof. destruct c as [[] [] [] [] [] [] [] []]; (discriminate || reflexivity). Qed.

(** X7.  The names that the style processor derives are safe in a custom
    property: the sanitized name of an effect style and the name of a text
    style consist of lower-case letters, digits and hyphens only, whatever the
    style is called; and the name of a text style does not begin with a
    hyphen. *)
Theorem style_names_are_sanitized (name : string) :
  all_chars is_name_char (sanitizeName name) = true
  /\ all_chars is_name_char (textName name) = true
  /\ startsWith (textName name) "-" = false
  /\ (forall variablesLookup s,
        text_name s = name ->
        exists css,
          textDeclaration variablesLookup s
          = "--wds-font-" ++ textName name ++ ": " ++ css ++ ";").
Proof.
  split; [|split; [|split]]; [| | |intros variablesLookup s <-; eexists; reflexivity].
  - unfold sanitizeName.
    apply (all_chars_map_chars (fun c => is_alnum c || is_char "-" c));
      [exact name_char_of_lowered|].
    apply (all_chars_replace_runs (fun c => is_alnum c || is_char " " c));
      [reflexivity| |].
    + intros c Hc Hp. unfold is_char in *. rewrite Hp in Hc.
      rewrite orb_false_r in Hc. now rewrite Hc.
    + apply all_chars_trim.
      apply (all_chars_replace_each (fun _ => true)); [reflexivity| |].
      * intros c _ Hp. now apply negb_false_iff in Hp.
      * now apply all_chars_any.
  - unfold textName.
    apply (all_chars_map_chars (fun c => is_alnum c || is_char "-" c));
      [exact name_char_of_lowered|].
    apply (all_chars_replace_runs (fun _ => true)); [reflexivity| |].
    + intros c _ Hp. apply negb_false_iff in Hp. now rewrite Hp.
    + now apply all_chars_any.
  - unfold textName, startsWith.
    induction name as [|c r IH]; [reflexivity|].
    simpl drop_while. destruct (is_alnum c) eqn:E; simpl negb; cbv iota.
    + simpl. rewrite E. simpl.
      destruct c as [[] [] [] [] [] [] [] []]; (discriminate || reflexivity).
    + exact IH.
Qed.

Lemma style_names_are_sanitized_witness :
  sanitizeName "Shadow/Card (Large)" = "shadow-card-large"
  /\ textName "  Heading/Large 1" = "heading-large-1"
  /\ exists css,
       textDeclaration weightLookup headingStyle
       = "--wds-font-" ++ textName "Heading/Large 1" ++ ": " ++ css ++ ";".
Proof.
  split; [reflexivity|]. split; [reflexivity|].
  exact (proj2 (proj2 (proj2 (style_names_are_sanitized "Heading/Large 1")))
           weightLookup headingStyle eq_refl).
Defined.

Lemma split_on_pieces (p : ascii -> bool) s :
  Forall (fun piece => all_chars (fun c => negb (p c)) piece = true) (split_on p s).
Proof.
  induction s as [|c r IH]; simpl; [repeat constructor|].
  destruct (p c) eqn:E; [now constructor|].
  destruct (split_on p r) as [|x xs]; [repeat constructor; simpl; now rewrite E|].
  inversion IH as [|? ? Hx Hxs]; subst.
  constructor; [|exact Hxs]. simpl. now rewrite E, Hx.
Qed.

Lemma all_chars_join_empty q l :
  Forall (fun s => all_chars q s = true) l -> all_chars q (join "" l) = true.
Proof.
  induction 1 as [|x r Hx Hr IH]; [reflexivity|].
  destruct r as [|y r']; [exact Hx|].
  change (join "" (x :: y :: r')) with (x ++ join "" (y :: r')).
  now rewrite all_chars_append, Hx, IH.
Qed.

Lemma is_alnum_upper_char c : is_alnum c = true -> is_alnum (upper_char c) = true.
Proof. destruct c as [[] [] [] [] [] [] [] []]; (discriminate || reflexivity). Qed.

Lemma is_alnum_lower_char c : is_alnum c = true -> is_alnum (lower_char c) = true.
Proof. destruct c as [[] [] [] [] [] [] [] []]; (discriminate || reflexivity). Qed.

Lemma capitalize_alnum k :
  all_chars is_alnum k = true -> all_chars is_alnum (capitalize k) = true.
Proof.
  destruct k as [|c r]; [reflexivity|]. simpl.
  intros H. apply andb_true_iff in H as [Hc Hr].
  unfold capitalize. simpl.
  change (slice1 (String c r)) with r.
  now rewrite (is_alnum_upper_char c Hc), Hr.
Qed.

(** X8.  The camel-case name of a definition holds letters and digits only:
    every other character of a key separates two fragments and is dropped;
    and its first character is no capital. *)
Theorem propertyName_is_alphanumeric (keys : list string) :
  all_chars is_alnum (propertyNameOf keys) = true
  /\ (forall c r, propertyNameOf keys = String c r -> is_upper c = false).
Proof.
  assert (F : all_chars is_alnum (propertyNameFull keys) = true).
  { unfold propertyNameFull. apply all_chars_join_empty.
    apply Forall_forall. intros s Hs.
    apply in_map_iff in Hs as (key & <- & _).
    apply all_chars_join_empty. apply Forall_forall. intros t Ht.
    apply in_map_iff in Ht as (piece & <- & Hp).
    apply capitalize_alnum.
    pose proof (split_on_pieces (fun c => negb (is_alnum c)) key) as S.
    rewrite Forall_forall in S. specialize (S _ Hp).
    erewrite <- S. clear. induction piece as [|c r IH]; simpl; [reflexivity|].
    now rewrite negb_involutive, IH. }
  unfold propertyNameOf.
  destruct (propertyNameFull keys) as [|c r]; [split; [reflexivity|discriminate]|].
  simpl in F. apply andb_true_iff in F as [Fc Fr].
  change (toLowerCase (charAt0 (String c r)) ++ slice1 (String c r))
    with (String (lower_char c) r).
  split.
  - simpl. now rewrite (is_alnum_lower_char c Fc), Fr.
  - intros c' r' [= <- _]. apply is_upper_lower_char.
Qed.

Lemma propertyName_is_alphanumeric_witness :
  propertyNameOf ["wds-color"; "Blue 500"; "on_hover"] = "wdsColorBlue500OnHover"
  /\ is_upper "w" = false.
Proof.
  split; [reflexivity|].
  exact (proj2 (propertyName_is_alphanumeric ["wds-color"; "Blue 500"; "on_hover"])
           "w"%char "dsColorBlue500OnHover" eq_refl).
Defined.

(* ------------------------------------------------------------------------- *)
(** ** Fonts *)




Lemma empty_iff_lowered_empty s : (s =? "") = (toLowerCase s =? "").
Proof. now destruct s. Qed.

Lemma lower_upper_char c : lower_char (upper_char c) = lower_char c.
Proof. destruct c as [[] [] [] [] [] [] [] []]; reflexivity. Qed.

Lemma lower_lower_char c : lower_char (lower_char c) = lower_char c.
Proof. destruct c as [[] [] [] [] [] [] [] []]; reflexivity. Qed.

(** X10.  The case of a descriptor does not matter: two descriptors that
    agree once lowered are parsed alike, so a descriptor in capitals or in
    lower case is parsed like the original. *)
Theorem parseFontStyle_ignores_case (a : string) :
  (forall b, toLowerCase a = toLowerCase b -> parseFontStyle a = parseFontStyle b)
  /\ parseFontStyle (toUpperCase a) = parseFontStyle a
  /\ parseFontStyle (toLowerCase a) = parseFontStyle a.
Proof.
  assert (G : forall x y, toLowerCase x = toLowerCase y ->
                          parseFontStyle x = parseFontStyle y).
  { intros x y H. unfold parseFontStyle, normalizedKeyOf.
    now rewrite (empty_iff_lowered_empty x), (empty_iff_lowered_empty y), H. }
  split; [exact (G a)|]. split; apply G; unfold toLowerCase, toUpperCase.
  - induction a as [|c r IH]; simpl; [reflexivity|].
    now rewrite lower_upper_char, IH.
  - induction a as [|c r IH]; simpl; [reflexivity|].
    now rewrite lower_lower_char, IH.
Qed.

Lemma parseFontStyle_ignores_case_witness :
  parseFontStyle "SEMI BOLD ITALIC" = mkFontParts "italic" "600"
  /\ parseFontStyle "Semi Bold Italic" = parseFontStyle "semi bold ITALIC".
Proof.
  split; [reflexivity|].
  exact (proj1 (parseFontStyle_ignores_case "Semi Bold Italic")
           "semi bold ITALIC" eq_refl).
Defined.

(** X11.  Without a style in the font name, the descriptor is put together
    from the [fontStyle] and [fontWeight] of the record, and the table name
    [normal] is found in it before the digits are looked at: with the style
    [normal], which is also the default, each of the weights 100 to 900 is
    derived as 400. *)
Theorem normal_style_hides_the_weight (fontName_ : option fontName)
  (fontSize : option num) (fallbackFamily : option string) (weight : jsval) :
  styleless fontName_ = true ->
  isHundreds (toString weight) = true ->
  derived_fontWeight
    (deriveFontParts fontName_ fontSize fallbackFamily (Some weight) "normal")
  = "400"
  /\ derived_fontStyle
       (deriveFontParts fontName_ fontSize fallbackFamily (Some weight) "normal")
     = "normal".
Proof.
  intros Hs Hw. unfold deriveFontParts, fallbackDescriptor.
  assert (E : match fontName_ with
              | Some f => or_string (style f) ""
              | None => ""
              end = "").
  { destruct fontName_ as [f|]; [|reflexivity]. now apply String.eqb_eq in Hs. }
  rewrite E. simpl derived_fontWeight. simpl derived_fontStyle.
  apply isHundreds_spec in Hw. simpl in Hw.
  repeat (destruct Hw as [<-|Hw]; [split; reflexivity|]). destruct Hw.
Qed.

Lemma normal_style_hides_the_weight_witness :
  derived_fontWeight
    (deriveFontParts None (Some (Dec 16 0)) (Some "Inter") (Some (JNum (Dec 700 0)))
       "normal")
  = "400"
  /\ derived_fontWeight
       (deriveFontParts None (Some (Dec 16 0)) (Some "Inter")
          (Some (JNum (Dec 700 0))) "italic")
     = "700".
Proof.
  split; [|reflexivity].
  exact (proj1 (normal_style_hides_the_weight None (Some (Dec 16 0)) (Some "Inter")
                  (JNum (Dec 700 0)) eq_refl eq_refl)).
Defined.

(* ------------------------------------------------------------------------- *)
(** ** Effects and the style document *)

Lemma filter_twice (A : Type) (p : A -> bool) l :
  filter p (filter p l) = filter p l.
Proof.
  induction l as [|x r IH]; simpl; [reflexivity|].
  destruct (p x) eqn:E; simpl; [now rewrite E, IH|exact IH].
Qed.

Lemma first_after_append (A B : Type) (f : A -> B) (l extra : list A) (k : B -> list string) :
  l <> [] ->
  match map f (l +++ extra) with [] => [] | x :: _ => k x end
  = match map f l with [] => [] | x :: _ => k x end.
Proof. destruct l; [congruence|reflexivity]. Qed.

Lemma hasVisible_filter kind effects :
  hasVisible kind effects = true ->
  filter (fun e => includes (effect_type e) kind) (filter visible effects) <> [].
Proof.
  unfold hasVisible. induction effects as [|e r IH]; simpl; [discriminate|].
  destruct (visible e) eqn:V; simpl.
  - destruct (includes (effect_type e) kind); simpl; [discriminate|exact IH].
  - exact IH.
Qed.

(** X12.  What the declarations of an effect style do not depend on: a
    sub-effect that is not visible, wherever it stands; and a blur that comes
    after a visible blur of its kind, since only the first layer blur and the
    first background blur are drawn. *)
Theorem effects_that_leave_no_trace (variablesLookup : obj definition)
  (name : string) (effects : list effect) :
  effectDeclarations variablesLookup name (filter visible effects)
  = effectDeclarations variablesLookup name effects
  /\ (forall e,
        includes (effect_type e) "SHADOW" = false ->
        (includes (effect_type e) "LAYER_BLUR" = true ->
         hasVisible "LAYER_BLUR" effects = true) ->
        (includes (effect_type e) "BACKGROUND_BLUR" = true ->
         hasVisible "BACKGROUND_BLUR" effects = true) ->
        effectDeclarations variablesLookup name (effects +++ [e])
        = effectDeclarations variablesLookup name effects).
Proof.
  split.
  - unfold effectDeclarations. now rewrite filter_twice.
  - intros e Hs Hl Hb. unfold effectDeclarations.
    rewrite (filter_app visible effects [e]).
    change (filter visible [e]) with (if visible e then [e] else []).
    destruct (visible e); [|now rewrite app_nil_r].
    rewrite !filter_app.
    change (filter (fun e0 => includes (effect_type e0) "SHADOW") [e])
      with (if includes (effect_type e) "SHADOW" then [e] else []).
    change (filter (fun e0 => includes (effect_type e0) "LAYER_BLUR") [e])
      with (if includes (effect_type e) "LAYER_BLUR" then [e] else []).
    change (filter (fun e0 => includes (effect_type e0) "BACKGROUND_BLUR") [e])
      with (if includes (effect_type e) "BACKGROUND_BLUR" then [e] else []).
    rewrite Hs, app_nil_r.
    f_equal. f_equal.
    + destruct (includes (effect_type e) "LAYER_BLUR"); [|now rewrite app_nil_r].
      apply first_after_append. now apply hasVisible_filter, Hl.
    + destruct (includes (effect_type e) "BACKGROUND_BLUR");
        [|now rewrite app_nil_r].
      apply first_after_append. now apply hasVisible_filter, Hb.
Qed.

Lemma effects_that_leave_no_trace_witness :
  let blur r := mkEffect true "LAYER_BLUR" (Some (Dec r 0)) None None None None [] in
  effectDeclarations [] "Glass" [blur 4%Z; blur 12%Z]
  = ["--wds-effects-filter-glass: blur(4px);"]
  /\ effectDeclarations [] "Glass" ([blur 4%Z] +++ [blur 12%Z])
     = effectDeclarations [] "Glass" [blur 4%Z].
Proof.
  intros blur. split; [reflexivity|].
  apply (proj2 (effects_that_leave_no_trace [] "Glass" [blur 4%Z]) (blur 12%Z)).
  - reflexivity.
  - reflexivity.
  - discriminate.
Defined.

Lemma flat_map_app_list (A B : Type) (f : A -> list B) l1 l2 :
  flat_map f (l1 +++ l2) = flat_map f l1 +++ flat_map f l2.
Proof.
  induction l1 as [|x r IH]; simpl; [reflexivity|]. now rewrite IH, app_assoc.
Qed.

Lemma flat_map_kept (A B : Type) (f : A -> list B) (p : A -> bool) l :
  (forall x, p x = false -> f x = []) ->
  flat_map f (filter p l) = flat_map f l.
Proof.
  intros H. induction l as [|x r IH]; simpl; [reflexivity|].
  destruct (p x) eqn:E; simpl; [now rewrite IH|]. now rewrite (H x E), IH.
Qed.

Lemma flat_map_none (A B : Type) (f : A -> list B) (p : A -> bool) l :
  (forall x, p x = true -> f x = []) ->
  flat_map f (filter p l) = [].
Proof.
  intros H. induction l as [|x r IH]; simpl; [reflexivity|].
  destruct (p x) eqn:E; simpl; [now rewrite (H x E), IH|exact IH].
Qed.

(** X13.  The style processor sorts the document by kind: the stylesheet is
    that of the text styles of the document followed by its effect styles,
    each kind in document order; a record of any other type leaves no
    trace. *)
Theorem styles_are_grouped_by_kind (data : list styleRecord)
  (variablesLookup : obj definition) :
  processStyleJSON data variablesLookup
  = processStyleJSON (filter isText data +++ filter isEffect data) variablesLookup.
Proof.
  unfold processStyleJSON. rewrite !flat_map_app_list.
  rewrite (flat_map_kept _ _ _ isText data),
          (flat_map_none _ _ _ isEffect data),
          (flat_map_none _ _
             (fun r => match r with
                       | EFFECT name effects =>
                           effectDeclarations variablesLookup name effects
                       | _ => []
                       end) isText data),
          (flat_map_kept _ _ _ isEffect data).
  - now rewrite app_nil_r.
  - now intros [s|name effects|].
  - now intros [s|name effects|].
  - now intros [s|name effects|].
  - now intros [s|name effects|].
Qed.

(* ------------------------------------------------------------------------- *)
(** ** The lookup table *)

(** X14.  Writing and reading the lookup table round-trip: when the
    definitions that share a [figmaId] share their [property], as the
    definitions of the modes of one token do, a bound variable that refers to
    the id of any definition resolves to [var(<its property>)], whatever the
    fallback. *)
Theorem reference_resolves_to_its_definition (items : list definition)
  (d : definition) (fallback : string) :
  (forall x y, In x items -> In y items -> lookupKey x = lookupKey y ->
               property x = property y) ->
  In d items ->
  (exists stored,
      obj_get (lookupKey d) (lookupsOf items) = Some stored
      /\ In stored items /\ property stored = property d)
  /\ valueFromPossibleVariable (lookupsOf items) (BRef (figmaId d)) fallback
     = "var(" ++ property d ++ ")".
Proof.
  intros Hp Hin.
  assert (E : exists stored,
             obj_get (lookupKey d) (lookupsOf items) = Some stored
             /\ In stored items /\ property stored = property d).
  { unfold lookupsOf. rewrite obj_get_lookups. unfold lastWithId.
    destruct (find (fun x => template (figmaId x) =? lookupKey d) (rev items))
      as [stored|] eqn:F.
    - apply find_some in F as [Hs Hk]. apply in_rev in Hs.
      apply String.eqb_eq in Hk.
      exists stored. repeat split; [exact Hs|]. now apply Hp.
    - apply in_rev in Hin.
      pose proof (find_none _ _ F d Hin) as N. simpl in N.
      unfold lookupKey in N. now rewrite String.eqb_refl in N. }
  split; [exact E|].
  destruct E as (stored & E & _ & P).
  unfold valueFromPossibleVariable. unfold lookupKey in E. now rewrite E, P.
Qed.

Lemma reference_resolves_to_its_definition_witness :
  let light := mkDefinition "--wds-color-bg" "wdsColorBg" (Some "V:1") ""
                 (JStr "#ffffff") "color" in
  let dark := mkDefinition "--wds-color-bg" "wdsColorBg" (Some "V:1") ""
                (JStr "#000000") "color" in
  let gap := mkDefinition "--wds-size-gap" "wdsSizeGap" (Some "V:2") ""
               (JStr "1rem") "number" in
  valueFromPossibleVariable (lookupsOf [light; dark; gap]) (BRef (Some "V:1")) "#fff"
  = "var(--wds-color-bg)"
  /\ List.length (lookupsOf [light; dark; gap]) = 2.
Proof.
  intros light dark gap. split; [|reflexivity].
  refine (proj2 (reference_resolves_to_its_definition [light; dark; gap] light
                   "#fff" _ (or_introl eq_refl))).
  intros x y Hx Hy.
  destruct Hx as [<-|[<-|[<-|[]]]]; destruct Hy as [<-|[<-|[<-|[]]]];
    intros H; (reflexivity || discriminate H).
Defined.

(* ------------------------------------------------------------------------- *)
(** ** The plugin's merge *)

Lemma copy_get (V : Type) (entries : list (string * V)) (target : obj V) k :
  NoDup (map fst entries) ->
  obj_get k (fold_left (fun t e => obj_set (fst e) (snd e) t) entries target)
  = match obj_get k entries with
    | Some v => Some v
    | None => obj_get k target
    end.
Proof.
  revert target. induction entries as [|[k0 v0] r IH]; intros target Hn; simpl;
    [reflexivity|].
  inversion Hn as [|? ? Hk Hr]; subst.
  rewrite (IH _ Hr), obj_get_set.
  destruct (String.eqb_spec k0 k) as [->|_]; [|reflexivity].
  destruct (obj_get k r) eqn:G; [|reflexivity].
  destruct Hk. eapply obj_get_key. exact G.
Qed.

(** X15.  In the merged object a property of [extra] wins over the property
    of the same name of [source], and a name that [extra] lacks keeps the
    value it has in [source]; a name that neither has is absent. *)
Theorem mergeObjects_prefers_extra (V : Type) (source extra : option (obj V))
  (k : string) :
  wellKeyed source -> wellKeyed extra ->
  obj_get k (mergeObjects source extra)
  = match member k extra with
    | Some v => Some v
    | None => member k source
    end.
Proof.
  intros Hs He. unfold mergeObjects.
  assert (S : obj_get k
                match source with
                | Some o => fold_left (fun t e => obj_set (fst e) (snd e) t)
                              (obj_entries o) []
                | None => []
                end = member k source).
  { destruct source as [o|]; [|reflexivity]. simpl in *.
    rewrite copy_get by now apply obj_entries_NoDup.
    rewrite obj_get_entries. now destruct (obj_get k o). }
  destruct extra as [o|]; simpl in *; [|exact S].
  rewrite copy_get by now apply obj_entries_NoDup.
  now rewrite obj_get_entries, S.
Qed.

Lemma mergeObjects_prefers_extra_witness :
  let paint := Some [("type", "SOLID"); ("visible", "true")] in
  let additions := Some [("variables", "{}"); ("type", "GRADIENT")] in
  mergeObjects paint additions
  = [("type", "GRADIENT"); ("visible", "true"); ("variables", "{}")]
  /\ obj_get "type" (mergeObjects paint additions) = Some "GRADIENT"
  /\ obj_get "visible" (mergeObjects paint additions) = Some "true".
Proof.
  intros paint additions.
  assert (Hs : wellKeyed paint) by (repeat constructor; simpl; intuition discriminate).
  assert (He : wellKeyed additions)
    by (repeat constructor; simpl; intuition discriminate).
  split; [reflexivity|]. split.
  - exact (mergeObjects_prefers_extra string paint additions "type" Hs He).
  - exact (mergeObjects_prefers_extra string paint additions "visible" Hs He).
Defined.

(* ------------------------------------------------------------------------- *)
(** ** Which collections are processed, and with which settings *)










(* ------------------------------------------------------------------------- *)
(** ** Aliases, leaves and schemes *)

(** X18.  For a leaf with mode data an alias to a token of the same
    collection round-trips: with the collection's prefix, [valueToCSS] turns
    the alias of the token at [path] into [var(<property>)], where
    [<property>] is the very name that the walk gives to the token at that
    path; the property of the aliasing leaf and the unit conversion play no
    part.  The collection key must not open with a brace, the prefix must
    hold no dollar, and neither it nor a name on the path a dot or a blank. *)
Theorem alias_round_trip (property : string) (convertPixelToRem_ : bool)
  (c : ascii) (key prefix_ : string) (path : list string) :
  c <> "{"%char ->
  all_chars (fun c => negb (is_char "$" c)) prefix_ = true ->
  no_separator prefix_ = true ->
  forallb no_separator path = true ->
  valueToCSS property (JStr (aliasOf (String c key) path)) (String c key)
    convertPixelToRem_ prefix_
  = JStr ("var(" ++ propertyOf (prefix_ :: path) ++ ")").
Proof.
  intros Hc Hd Hp Hpath. unfold valueToCSS.
  change (charAt0 (toString (JStr (aliasOf (String c key) path))) =? "{")
    with true.
  cbv iota. cbv [toString].
  now rewrite alias_of_same_collection.
Qed.

Lemma alias_round_trip_witness :
  valueToCSS "--wds-color-weight-link" (JStr "{@color.text.default}") "@color"
    true "wds-color"
  = JStr "var(--wds-color-text-default)"
  /\ propertyOf ["wds-color"; "text"; "default"] = "--wds-color-text-default".
Proof.
  split; [|reflexivity].
  assert (Hc : "@"%char <> "{"%char) by discriminate.
  exact (alias_round_trip "--wds-color-weight-link" true "@" "color" "wds-color"
           ["text"; "default"] Hc eq_refl eq_refl eq_refl).
Defined.

Lemma leaf_calls_complete object path :
  leaf_at object path ->
  forall currentType keys,
    exists c,
      In c (leafCalls object currentType keys)
      /\ call_keys c = keys +++ path
      /\ (leaves_lack_extensions object = true ->
          getNamespaceData (call_extensions c) = None).
Proof.
  induction 1 as [type_ value_ description_ extensions_ children
                 |type_ description_ extensions_ children key child path
                    Hin Hkey Hleaf IH];
    intros currentType keys.
  - eexists. split; [now left|]. split; [simpl; now rewrite app_nil_r|].
    simpl. now destruct (getNamespaceData extensions_).
  - destruct (IH (or_string type_ currentType) (keys +++ [key]))
      as (c & Hc & Hk & He).
    exists c. split; [|split].
    + rewrite leafCalls_group. apply in_flat_map.
      exists (key, leafCalls child). split.
      * apply obj_entries_In. unfold callsOf.
        apply in_map_iff. exists (key, child). now split.
      * simpl. now rewrite Hkey.
    + rewrite Hk, <- app_assoc. reflexivity.
    + intros Hfree. apply He.
      apply leaves_lack_extensions_children in Hfree.
      rewrite Forall_forall in Hfree. exact (Hfree _ Hin).
Qed.

(** X19.  No leaf is lost: in a tree whose leaves have no extension data,
    every leaf that a path of members without a leading [$] leads to has a
    definition under the mode [default], named after that path. *)
Theorem every_leaf_is_defined replacements definitionsKey prefix_
  convertPixelToRem_ (object : token) (currentType : string)
  (keys path : list string) :
  leaves_lack_extensions object = true ->
  leaf_at object path ->
  exists l d,
    obj_get "default"
      (traverse replacements definitionsKey prefix_ convertPixelToRem_ object []
         currentType keys) = Some l
    /\ In d l
    /\ property d = propertyOf (keys +++ path)
    /\ figmaId d = Some "UNDEFINED".
Proof.
  intros Hfree Hleaf.
  destruct (leaf_calls_complete object path Hleaf currentType keys)
    as (c & Hc & Hk & He).
  specialize (He Hfree).
  set (d := mkDefinition (propertyOf (call_keys c)) (propertyNameOf (call_keys c))
              (Some "UNDEFINED") (or_string (call_description c) "")
              (valueWithReplacements replacements
                 (valueToCSS (propertyOf (call_keys c)) (call_value c)
                    definitionsKey convertPixelToRem_ ""))
              (or_string (call_type c) (call_currentType c))).
  assert (Hd : In d (ofMode "default"
                       (flat_map (leafDefinitions replacements definitionsKey
                                    prefix_ convertPixelToRem_)
                          (leafCalls object currentType keys)))).
  { unfold ofMode. apply in_map_iff. exists ("default", d). split; [reflexivity|].
    apply filter_In. split; [|reflexivity].
    apply in_flat_map. exists c. split; [exact Hc|].
    unfold leafDefinitions. rewrite He. now left. }
  rewrite traverse_pushes, pushes_get. simpl.
  destruct (ofMode "default" _) as [|a r]; [destruct Hd|].
  exists (a :: r), d. repeat split; [exact Hd|].
  simpl. now rewrite Hk.
Qed.

Lemma every_leaf_is_defined_witness :
  exists l d,
    obj_get "default"
      (traverse [] "@color_primitives" "wds-color" true primitives [] ""
         ["wds-color"]) = Some l
    /\ In d l
    /\ property d = "--wds-color-blue-link"
    /\ figmaId d = Some "UNDEFINED".
Proof.
  assert (Hleaf : leaf_at primitives ["blue"; "link"]).
  { unfold primitives, group, leaf.
    eapply leaf_below; [left; reflexivity|reflexivity|].
    eapply leaf_below; [right; right; left; reflexivity|reflexivity|].
    constructor. }
  exact (every_leaf_is_defined [] "@color_primitives" "wds-color" true primitives
           "" ["wds-color"] ["blue"; "link"] eq_refl Hleaf).
Defined.

Lemma forEach_indexed_agree definitions definitions' key remove pad schemes i :
  Forall (fun scheme => obj_get scheme definitions = obj_get scheme definitions')
    schemes ->
  forEach_indexed (schemeBlock definitions key remove pad) i schemes
  = forEach_indexed (schemeBlock definitions' key remove pad) i schemes.
Proof.
  intros H. revert i. induction H as [|x r Hx Hr IH]; intros i; simpl;
    [reflexivity|].
  rewrite IH. unfold schemeBlock. now rewrite Hx.
Qed.

(** X20.  With colour schemes configured, the stylesheet of a collection is
    drawn from the configured schemes alone: two definition objects that
    agree on every configured light and dark scheme give the same lines, so
    the definitions of any other mode never reach the stylesheet. *)
Theorem only_configured_schemes_are_drawn (definitions definitions' :
  obj (list definition)) (settings : collectionSettings) (key : string)
  (schemes : list string) :
  colorSchemes settings = Some schemes ->
  Forall (fun scheme => obj_get scheme definitions = obj_get scheme definitions')
    (schemes +++ match colorSchemesDark settings with
                 | Some dark => dark
                 | None => []
                 end) ->
  fileStringCSSFromProcessedObject definitions settings key
  = fileStringCSSFromProcessedObject definitions' settings key.
Proof.
  intros E H. unfold fileStringCSSFromProcessedObject. rewrite E.
  apply Forall_app in H as [Hl Hd].
  rewrite (forEach_indexed_agree definitions definitions' _ _ _ _ _ Hl).
  destruct (colorSchemesDark settings) as [dark|]; [|reflexivity].
  now rewrite (forEach_indexed_agree definitions definitions' _ _ _ _ _ Hd).
Qed.

Lemma only_configured_schemes_are_drawn_witness :
  let settings :=
    mkSettings "color" (Some ["wds_light"]) (Some ["wds_dark"]) (Some "_light")
      (Some "_dark") None None in
  let bg v := [mkDefinition "--wds-color-bg" "wdsColorBg" (Some "V:1") ""
                 (JStr v) "color"] in
  fileStringCSSFromProcessedObject
    [("wds_light", bg "#fff"); ("wds_dark", bg "#000"); ("high_contrast", bg "#ff0")]
    settings "color"
  = fileStringCSSFromProcessedObject
      [("wds_light", bg "#fff"); ("wds_dark", bg "#000")] settings "color".
Proof.
  intros settings bg.
  apply (only_configured_schemes_are_drawn _ _ settings "color" ["wds_light"]
           eq_refl).
  repeat constructor.
Defined.
